(** * CGFormer img2bev encoder: reference points, camera projection,
      layer orchestration

    A shallow embedding of
    [core/models/img2bev/transformer_utils/encoder.py].

    Conventions of the embedding.
    - Tensor entries are exact rationals ([Q]); the source computes them in
      float32.  Equalities between coordinates are therefore stated with
      [==] ([Qeq]) and order tests are the exact ones.  A division by zero
      is 0 in [Q] and inf or nan in float32; statements about a quotient
      keep to non-zero divisors.
    - A tensor is a nested list, outermost axis first.
    - Python objects that the code mutates in place live in a heap
      ([gmap loc _]); a function that writes to such an object takes the
      heap and returns the new one.
    - A Python exception is the [None] of the option monad. *)

From Stdlib Require Import QArith Qminmax Lqa.
From stdpp Require Import base option list gmap strings.

(** ** Numeric helpers *)

Abbreviation vec := (list Q).
Abbreviation matrix := (list (list Q)).

Abbreviation tensor3 A := (list (list (list A))).
Abbreviation tensor4 A := (list (list (list (list A)))).

Definition Qofnat (n : nat) : Q := inject_Z (Z.of_nat n).

Definition Qltb (x y : Q) : bool :=
  match (x ?= y)%Q with Lt => true | _ => false end.

Definition Qgtb (x y : Q) : bool := Qltb y x.

(** [torch.maximum] on one entry. *)
Definition maximum (x y : Q) : Q := if Qltb x y then y else x.

(** [torch.linspace(start, end, steps)]. *)
Definition linspace (start end_ : Q) (steps : nat) : list Q :=
  match steps with
  | O => []
  | S O => [start]
  | S (S _) =>
      (λ i, start + Qofnat i * ((end_ - start) / Qofnat (steps - 1)))%Q
        <$> seq 0 steps
  end.

(** ** [VoxFormerEncoder.get_reference_points] *)

(** What a Python function hands back: a tensor, or [None] when it falls
    off its end. *)
Inductive returned (A : Type) : Type :=
  | Tensor (t : A)
  | PyNone.
Arguments Tensor {A} t.
Arguments PyNone {A}.

(** [t.view(-1, 1, 1).expand(D, H, W)] *)
Definition expand_0 (H W : nat) (l : list Q) : tensor3 Q :=
  (λ z, replicate H (replicate W z)) <$> l.
(** [t.view(1, 1, W).expand(D, H, W)] *)
Definition expand_2 (D H : nat) (l : list Q) : tensor3 Q :=
  replicate D (replicate H l).
(** [t.view(1, H, 1).expand(D, H, W)] *)
Definition expand_1 (D W : nat) (l : list Q) : tensor3 Q :=
  replicate D ((λ y, replicate W y) <$> l).

Definition div_all (d : Q) (t : tensor3 Q) : tensor3 Q :=
  fmap (M:=list) (fmap (M:=list) (fmap (M:=list) (λ v, v / d)%Q)) t.

(** [torch.stack((xs, ys, zs), -1)] *)
Definition stack_last3 (xs ys zs : tensor3 Q) : tensor3 vec :=
  zip_with (zip_with (zip_with (λ x yz, [x; yz.1; yz.2]))) xs
    (zip_with (zip_with zip) ys zs).

(** [t.permute(0, 3, 1, 2).flatten(2).permute(0, 2, 1)]: the two grid axes
    are merged row-major, the coordinate axis stays last. *)
Definition flatten_grid (t : tensor3 vec) : list (list vec) :=
  fmap (M:=list) (mjoin (M:=list)) t.

(** [torch.meshgrid(a, b, indexing='ij')] *)
Definition meshgrid_ij (a b : list Q) : list (list Q) * list (list Q) :=
  ((λ y, replicate (length b) y) <$> a, replicate (length a) b).

Definition get_reference_points
    (H W : nat) (Z : Q) (num_points_in_pillar : nat) (dim : string)
    (bs : nat) : returned (tensor4 Q) :=
  if String.eqb dim "3d" then
    let zs := div_all Z
      (expand_0 H W (linspace (1#2) (Z - (1#2))%Q num_points_in_pillar)) in
    let xs := div_all (Qofnat W)
      (expand_2 num_points_in_pillar H
         (linspace (1#2) (Qofnat W - (1#2))%Q W)) in
    let ys := div_all (Qofnat H)
      (expand_1 num_points_in_pillar W
         (linspace (1#2) (Qofnat H - (1#2))%Q H)) in
    let ref_3d := stack_last3 xs ys zs in
    let ref_3d := flatten_grid ref_3d in
    Tensor (replicate bs ref_3d)
  else if String.eqb dim "2d" then
    let '(ref_y, ref_x) :=
      meshgrid_ij (linspace (1#2) (Qofnat H - (1#2))%Q H)
                  (linspace (1#2) (Qofnat W - (1#2))%Q W) in
    let ref_y := (λ v, v / Qofnat H)%Q <$> mjoin ref_y in
    let ref_x := (λ v, v / Qofnat W)%Q <$> mjoin ref_x in
    let ref_2d := zip_with (λ x y, [x; y]) ref_x ref_y in
    Tensor (replicate bs ((λ p, [p]) <$> ref_2d))
  else PyNone.

(** Entry of a tensor, [None] outside its shape. *)
Definition entry3 {A} (t : tensor3 A) (i j k : nat) : option A :=
  a ← t !! i; b ← a !! j; b !! k.

Definition entry {A} (t : tensor4 A) (i j k l : nat) : option A :=
  a ← t !! i; b ← a !! j; c ← b !! k; c !! l.

(** Every row of a grid tensor has [W] cells. *)
Definition rows_of_length {A} (W : nat) (t : tensor3 A) : Prop :=
  Forall (Forall (λ r, length r = W)) t.


(** Two points hold the same values. *)
Definition point_eq (p q : vec) : Prop := Forall2 Qeq p q.

(** [get_reference_points(H, W, Z, npp, '3d', bs)] holds, for every batch
    item, height level and grid cell, the point
    [((col+0.5)/W, (row+0.5)/H, height level)], at position
    [row * W + col] of its level. *)
Definition emits_centres (height : nat → Q) (H W : nat) (Z : Q)
    (npp bs : nat) : Prop :=
  ∃ t, get_reference_points H W Z npp "3d" bs = Tensor t ∧
    ∀ b level row col, b < bs → level < npp → row < H → col < W →
      ∃ x y z, entry3 t b level (row * W + col) = Some [x; y; z] ∧
        (x == (Qofnat col + (1#2)) / Qofnat W)%Q ∧
        (y == (Qofnat row + (1#2)) / Qofnat H)%Q ∧
        (z == height level)%Q.

(** The height of level [k] when the levels are numbered like rows and
    columns. *)
Definition height_by_index (Z : Q) (k : nat) : Q := ((Qofnat k + (1#2)) / Z)%Q.

(** The height of level [k] as the code computes it: the [k]-th of [npp]
    evenly spaced samples from [0.5] to [Z - 0.5], over [Z]. *)
Definition height_evenly_spaced (Z : Q) (npp k : nat) : Q :=
  (((1#2) + Qofnat k * ((Z - 1) / Qofnat (npp - 1))) / Z)%Q.


(** ** Linear algebra on nested lists *)

Definition dot (u v : vec) : Q := foldr Qplus 0%Q (zip_with Qmult u v).

(** [m @ v.unsqueeze(-1)] followed by [squeeze(-1)] *)
Definition matvec (m : matrix) (v : vec) : vec := (λ row, dot row v) <$> m.

Definition vec_add (u v : vec) : vec := zip_with Qplus u v.
Definition vec_sub (u v : vec) : vec := zip_with Qminus u v.

Definition sign (j : nat) : Q := if Nat.even j then 1%Q else (- (1))%Q.

Definition minor (i j : nat) (m : matrix) : matrix :=
  delete j <$> delete i m.

(** Determinant of the leading [n] x [n] block by expansion along the first
    row. *)
Fixpoint det (n : nat) (m : matrix) : Q :=
  match n with
  | O => 1%Q
  | S n' =>
      match m with
      | [] => 1%Q
      | row :: _ =>
          foldr Qplus 0%Q
            (imap (λ j a, sign j * a * det n' (minor 0 j m))%Q row)
      end
  end.

(** [torch.inverse] of one square matrix: the adjugate over the
    determinant; a singular matrix raises. *)
Definition inverse (m : matrix) : option matrix :=
  let n := length m in
  let d := det n m in
  if Qeq_bool d 0%Q then None
  else Some ((λ i, (λ j, sign (i + j) * det (n - 1) (minor j i m) / d)%Q
                     <$> seq 0 n) <$> seq 0 n).

(** ** Camera parameters and the encoder object *)

Abbreviation loc := nat.
Abbreviation heap := (gmap nat (tensor4 Q)).

(** The tuple [cam_params], one tensor per field, batch axis first. *)
Record cam_params := {
  rots : list (list matrix);       (* [B, num_cam, 3, 3] *)
  trans : list (list vec);         (* [B, num_cam, 3] *)
  intrins : list (list matrix);    (* [B, num_cam, 3, 3] or [.., 4, 4] *)
  post_rots : list (list matrix);  (* [B, num_cam, 3, 3] *)
  post_trans : list (list vec);    (* [B, num_cam, 3] *)
  bda : list matrix                (* [B, 3, 3] or [B, 4, 4] *)
}.

(** [t.shape[-1]] of a batch of matrices and [t.shape[3]] of a batch of
    per-camera matrices. *)
Definition last_dim (t : list matrix) : nat :=
  match t with (r :: _) :: _ => length r | _ => 0 end.
Definition dim_3 (t : list (list matrix)) : nat :=
  match t with ((r :: _) :: _) :: _ => length r | _ => 0 end.

(** [x.shape[1]] *)
Definition size_1 {A} (t : list (list A)) : nat :=
  match t with r :: _ => length r | [] => 0 end.
(** [x.shape[2]] *)
Definition size_2 {A} (t : tensor3 A) : nat :=
  match t with (r :: _) :: _ => length r | _ => 0 end.

Definition eps : Q := (1 # 100000)%Q.

(** ** One sample point through the projection chain

    The source runs the chain on whole tensors of shape
    [D, B, num_cam, num_query, _]; every operation acts on the last axis of
    one entry, so the chain is written for a single entry and tabulated
    afterwards. *)

(** [inverse(bda) @ p], homogenised when [bda] is 4x4. *)
Definition apply_bda (bda_is_4 : bool) (inv_bda : matrix) (p : vec) : vec :=
  if bda_is_4 then take 3 (matvec inv_bda (p ++ [1%Q]))
  else matvec inv_bda p.

(** [inv_rots @ (p - trans)] *)
Definition to_camera (tr : vec) (inv_rots : matrix) (p : vec) : vec :=
  matvec inv_rots (vec_sub p tr).

(** [intrins @ p], homogenised when [intrins] is 4x4. *)
Definition apply_intrins (intrins_is_4 : bool) (K : matrix) (p : vec) : vec :=
  if intrins_is_4 then matvec K (p ++ [1%Q]) else matvec K p.

(** The camera-space entry [reference_points_cam] right after line 143
    (line 306 in the DFA3D variant). *)
Definition camera_space (bda_is_4 intrins_is_4 : bool)
    (inv_bda : matrix) (tr : vec) (inv_rots K : matrix) (p : vec) : vec :=
  apply_intrins intrins_is_4 K
    (to_camera tr inv_rots (apply_bda bda_is_4 inv_bda p)).

(** The divisor of the perspective divide,
    [torch.maximum(points_d, torch.ones_like(..) * eps)]. *)
Definition divisor (points_d : Q) : Q := maximum points_d eps.

(** [post_rots[:, :, :2, :2] @ c + post_trans[:, :, :2]] *)
Definition post_transform (post_rot : matrix) (post_tr : vec) (c : vec) : vec :=
  vec_add (matvec (take 2 <$> take 2 post_rot) c) (take 2 post_tr).

(** The mask test of lines 156-162 on one entry. *)
Definition visible (points_d x y : Q) : bool :=
  Qgtb points_d eps
  && Qgtb x eps && Qltb x (1 - eps)%Q
  && Qgtb y eps && Qltb y (1 - eps)%Q.

(** What the function holds for one entry when it returns. *)
Record sample := {
  points_d : Q;                 (* what the name [points_d] reads *)
  raw_depth : Q;                (* third camera-space component *)
  reference_points_cam : vec;
  volume_mask : bool
}.

(** [VoxFormerEncoder.point_sampling], lines 145-162, on one entry.
    [points_d] is a view of the camera-space tensor; line 146 binds
    [reference_points_cam] to a new tensor, so the view keeps the raw
    depth. *)
Definition project (ogfH ogfW : Q) (post_rot : matrix) (post_tr : vec)
    (cam : vec) : option sample :=
  d ← cam !! 2;
  let c := (λ v, v / divisor d)%Q <$> take 2 cam in
  let c := post_transform post_rot post_tr c in
  let c := alter (λ v, v / ogfW)%Q 0 c in
  let c := alter (λ v, v / ogfH)%Q 1 c in
  x ← c !! 0;
  y ← c !! 1;
  Some {| points_d := d; raw_depth := d;
          reference_points_cam := c;
          volume_mask := visible d x y |}.

(** Assignment to a slice of the last axis, [t[..., a:a+len(v)] = v]. *)
Definition write_slice (a : nat) (v : vec) (s : vec) : vec :=
  take a s ++ v ++ drop (a + length v) s.

(** [VoxFormerEncoder_DFA3D.point_sampling], lines 308-328, on one entry.
    Here every assignment writes into the storage [s] of the camera-space
    tensor itself, and [points_d = reference_points_cam[..., 2:3]] is a view
    of that storage: it is read (line 322) after line 319 has overwritten
    channel 2. *)
Definition project_DFA3D (ogfH ogfW : Q) (d_bound : list Q)
    (post_rot : matrix) (post_tr : vec) (cam : vec) : option sample :=
  let s := cam in
  d ← s !! 2;
  let s := write_slice 0 ((λ v, v / divisor d)%Q <$> take 2 s) s in
  let s := write_slice 0 (matvec (take 2 <$> take 2 post_rot) (take 2 s)) s in
  let s := write_slice 0 (vec_add (take 2 s) (take 2 post_tr)) s in
  let s := alter (λ v, v / ogfW)%Q 0 s in
  let s := alter (λ v, v / ogfH)%Q 1 s in
  d0 ← d_bound !! 0;
  d1 ← d_bound !! 1;
  let s := alter (λ v, (v - d0) / (d1 - d0))%Q 2 s in
  let c := take 3 s in
  points_d ← s !! 2;
  x ← c !! 0;
  y ← c !! 1;
  Some {| points_d := points_d; raw_depth := d;
          reference_points_cam := c;
          volume_mask := visible points_d x y |}.

(** ** The projection on whole tensors *)

(** [t[..., c:c+1] = t[..., c:c+1] * scale + offset], in place. *)
Definition rescale_channel (c : nat) (scale offset : Q)
    (t : tensor4 Q) : tensor4 Q :=
  fmap (M:=list) (fmap (M:=list) (fmap (M:=list)
    (alter (λ v, v * scale + offset)%Q c))) t.

(** Lines 112-117: the three assignments write into the caller's tensor. *)
Definition denormalize (pc_range : list Q) (reference_points : loc)
    (h : heap) : option heap :=
  t ← h !! reference_points;
  r0 ← pc_range !! 0; r3 ← pc_range !! 3;
  let h := <[reference_points := rescale_channel 0 (r3 - r0)%Q r0 t]> h in
  t ← h !! reference_points;
  r1 ← pc_range !! 1; r4 ← pc_range !! 4;
  let h := <[reference_points := rescale_channel 1 (r4 - r1)%Q r1 t]> h in
  t ← h !! reference_points;
  r2 ← pc_range !! 2; r5 ← pc_range !! 5;
  Some (<[reference_points := rescale_channel 2 (r5 - r2)%Q r2 t]> h).

(** A matrix with [n] rows of [n] entries. *)
Definition square (n : nat) (m : matrix) : Prop :=
  length m = n ∧ Forall (λ r, length r = n) m.

(** A tensor with one block per batch item and camera, each block
    satisfying [P]. *)
Definition per_camera {A} (B num_cam : nat) (P : A → Prop)
    (x : list (list A)) : Prop :=
  length x = B ∧ Forall (λ xb, length xb = num_cam ∧ Forall P xb) x.

#[global] Instance square_dec n m : Decision (square n m).
Proof. unfold square. apply _. Defined.

#[global] Instance per_camera_dec {A} B num_cam (P : A → Prop)
    `{!∀ a, Decision (P a)} x : Decision (per_camera B num_cam P x).
Proof. unfold per_camera. apply _. Defined.

(** The first two rows of a matrix exist and have two entries each, which
    is what the slice [[:2, :2]] followed by [view(.., 2, 2)] needs. *)
Definition has_block_2x2 (m : matrix) : Prop :=
  2 ≤ length m ∧ Forall (λ r, 2 ≤ length r) (take 2 m).

#[global] Instance has_block_2x2_dec m : Decision (has_block_2x2 m).
Proof. unfold has_block_2x2. apply _. Defined.

(** The per-entry result tabulated in the layout the function returns,
    [num_cam, B, num_query, D] (after the [permute(2, 1, 3, 0, 4)] of lines
    164-165).

    The [view]s of lines 124-151 name the sizes of the tensors they are
    applied to, with [B] the batch size of the reference points and
    [num_cam = trans.shape[1]]; a tensor of other sizes raises there.  The
    guards below are these checks, in the order of the source: the last
    axis of the reference points is 3 (line 124); [bda] is [B] matrices of
    4x4 or of 3x3, by the branch taken (130, 133); [trans] is
    [B, num_cam, 3] (135); [rots] is [B, num_cam, 3, 3] (136); [intrins] is
    [B, num_cam] matrices of 4x4 or of 3x3, by the branch taken (141, 143);
    [post_rots] and [post_trans] are [B, num_cam] blocks from which a 2x2
    matrix and a 2-vector can be sliced (150, 151).  ([view] only counts
    elements: a tensor of other sizes with the same number of elements,
    which it would regroup, is not modelled and fails here.) *)
Definition tabulate_samples (proj : matrix → vec → vec → option sample)
    (cp : cam_params) (inv_bda : list matrix)
    (inv_rots : list (list matrix)) (t : tensor4 Q)
    : option (tensor4 sample) :=
  let num_cam := size_1 (trans cp) in
  let B := length t in
  let D := size_1 t in
  let num_query := size_2 t in
  let bda_is_4 := Nat.eqb (last_dim (bda cp)) 4 in
  let intrins_is_4 := Nat.eqb (dim_3 (intrins cp)) 4 in
  guard (Forall (Forall (Forall (λ p : vec, length p = 3))) t);;
  guard (length (bda cp) = B);;
  guard (Forall (square (if bda_is_4 then 4 else 3)) (bda cp));;
  guard (per_camera B num_cam (λ v : vec, length v = 3) (trans cp));;
  guard (per_camera B num_cam (square 3) (rots cp));;
  guard (per_camera B num_cam (square (if intrins_is_4 then 4 else 3))
           (intrins cp));;
  guard (per_camera B num_cam has_block_2x2 (post_rots cp));;
  guard (per_camera B num_cam (λ v : vec, 2 ≤ length v) (post_trans cp));;
  mapM (λ n, mapM (λ b, mapM (λ q, mapM (λ d,
      p ← entry3 t b d q;
      ib ← inv_bda !! b;
      tr ← trans cp !! b ≫= (.!! n);
      ir ← inv_rots !! b ≫= (.!! n);
      K ← intrins cp !! b ≫= (.!! n);
      pr ← post_rots cp !! b ≫= (.!! n);
      pt ← post_trans cp !! b ≫= (.!! n);
      proj pr pt (camera_space bda_is_4 intrins_is_4 ib tr ir K p))
    (seq 0 D)) (seq 0 num_query)) (seq 0 B)) (seq 0 num_cam).

Definition map4 {A B} (f : A → B) (t : tensor4 A) : tensor4 B :=
  fmap (M:=list) (fmap (M:=list) (fmap (M:=list) (fmap (M:=list) f))) t.

(** Everything [point_sampling] computes: the heap it leaves and the
    per-entry samples. *)
Definition point_sampling_samples
    (proj : matrix → vec → vec → option sample)
    (h : heap) (reference_points : loc) (pc_range : list Q)
    (cp : cam_params) : option (tensor4 sample * heap) :=
  h ← denormalize pc_range reference_points h;
  t ← h !! reference_points;
  inv_bda ← mapM inverse (bda cp);
  inv_rots ← mapM (mapM inverse) (rots cp);
  s ← tabulate_samples proj cp inv_bda inv_rots t;
  Some (s, h).

(** The part of the encoder object the projection reads. *)
Record projector := {
  final_dim : Q * Q;      (* (ogfH, ogfW) *)
  d_bound : list Q        (* DFA3D only *)
}.

(** [VoxFormerEncoder.point_sampling]: returns
    [(reference_points_cam, volume_mask)] and the heap. *)
Definition point_sampling (self : projector)
    (h : heap) (reference_points : loc) (pc_range : list Q)
    (cp : cam_params)
    : option (tensor4 vec * tensor4 bool * heap) :=
  let '(ogfH, ogfW) := final_dim self in
  '(s, h) ← point_sampling_samples (project ogfH ogfW)
              h reference_points pc_range cp;
  Some (map4 reference_points_cam s, map4 volume_mask s, h).

(** [VoxFormerEncoder_DFA3D.point_sampling] *)
Definition point_sampling_DFA3D (self : projector)
    (h : heap) (reference_points : loc) (pc_range : list Q)
    (cp : cam_params)
    : option (tensor4 vec * tensor4 bool * heap) :=
  let '(ogfH, ogfW) := final_dim self in
  '(s, h) ← point_sampling_samples (project_DFA3D ogfH ogfW (d_bound self))
              h reference_points pc_range cp;
  Some (map4 reference_points_cam s, map4 volume_mask s, h).

(** The camera-space depth of every entry of a call, in the layout of the
    returned tensors. *)
Definition camera_depth (self : projector)
    (h : heap) (reference_points : loc) (pc_range : list Q)
    (cp : cam_params) : option (tensor4 Q) :=
  let '(ogfH, ogfW) := final_dim self in
  '(s, _) ← point_sampling_samples (project ogfH ogfW)
              h reference_points pc_range cp;
  Some (map4 raw_depth s).

(** ** Inputs of consistent shape

    What [point_sampling] takes for granted about its arguments: the
    reference points [t] are a rectangular [bs, D, num_query, 3] tensor,
    [pc_range] has its six entries, [bda] holds one invertible 3x3 (or 4x4)
    matrix per batch item, and for every batch item and camera [rots]
    holds an invertible 3x3 matrix, [trans] a 3-vector, [intrins] a 3x3 (or
    4x4) matrix, and [post_rots] and [post_trans] the rows the slices of
    lines 150-151 read.  These are the sizes the [view]s of the function
    name. *)

Definition rectangular (t : tensor4 Q) : Prop :=
  Forall (λ tb, length tb = size_1 t ∧
                Forall (λ td, length td = size_2 t) tb) t.

Definition invertible (m : matrix) : Prop := is_Some (inverse m).

Definition well_shaped (t : tensor4 Q) (pc_range : list Q)
    (cp : cam_params) : Prop :=
  rectangular t ∧
  Forall (Forall (Forall (λ p : vec, length p = 3))) t ∧
  6 ≤ length pc_range ∧
  length (bda cp) = length t ∧
  Forall (square (if Nat.eqb (last_dim (bda cp)) 4 then 4 else 3))
    (bda cp) ∧
  Forall invertible (bda cp) ∧
  per_camera (length t) (size_1 (trans cp)) (square 3) (rots cp) ∧
  per_camera (length t) (size_1 (trans cp)) invertible (rots cp) ∧
  per_camera (length t) (size_1 (trans cp)) (λ v, length v = 3)
    (trans cp) ∧
  per_camera (length t) (size_1 (trans cp))
    (square (if Nat.eqb (dim_3 (intrins cp)) 4 then 4 else 3))
    (intrins cp) ∧
  per_camera (length t) (size_1 (trans cp)) has_block_2x2 (post_rots cp) ∧
  per_camera (length t) (size_1 (trans cp)) (λ v, 2 ≤ length v)
    (post_trans cp).

(** The number of cameras of a call, [trans.shape[1]]. *)
Definition num_cam (cp : cam_params) : nat := size_1 (trans cp).

(** Two tensors hold the same values. *)
Definition tensor_eq (t u : tensor4 Q) : Prop :=
  Forall2 (Forall2 (Forall2 (Forall2 Qeq))) t u.

(** A call of [point_sampling] leaves its argument [reference_points] with
    the values it had. *)
Definition leaves_reference_points (self : projector) (h : heap)
    (reference_points : loc) (pc_range : list Q) (cp : cam_params) : Prop :=
  ∀ pts mask h' t,
    point_sampling self h reference_points pc_range cp
    = Some (pts, mask, h') →
    h !! reference_points = Some t →
    ∃ t', h' !! reference_points = Some t' ∧ tensor_eq t t'.

(** ** [VoxFormerEncoder.forward]

    Feature tensors ([bev_query], [key], [value], ...) are only handed on
    to the layers, so their type [T] is left open; the two operations the
    encoder applies to them are parameters. *)

Section Encoder.

Variable T : Type.
(** [t.size(1)] and [t.permute(1, 0, 2)] on a feature tensor. *)
Variable size1 : T → nat.
Variable permute_102 : T → T.

(** The arguments a layer is called with. *)
Record layer_call := {
  lc_query : T;
  lc_key : T;
  lc_value : T;
  lc_bev_pos : option T;
  lc_ref_2d : tensor4 Q;
  lc_ref_3d : loc;
  lc_bev_h : option nat;
  lc_bev_w : option nat;
  lc_spatial_shapes : option (list (nat * nat));
  lc_level_start_index : option (list nat);
  lc_reference_points_cam : tensor4 vec;
  lc_bev_mask : tensor4 bool;
  lc_prev_bev : option T
}.

(** A layer sees its arguments and the heap its tensor arguments live
    in. *)
Definition layer := heap → layer_call → T.

Record VoxFormerEncoder := {
  enc_projector : projector;
  pc_range : list Q;
  num_points_in_pillar : nat;
  return_intermediate : bool;
  layers : list layer
}.

(** What [forward] returns: one feature tensor, or [torch.stack] of one
    tensor per layer. *)
Inductive encoder_output :=
  | Output (t : T)
  | Stacked (ts : list T).

(** [torch.stack(ts)]; an empty list raises. *)
Definition stack (ts : list T) : option encoder_output :=
  match ts with
  | [] => None
  | _ => Some (Stacked ts)
  end.

(** [torch.stack([ref_2d, ref_2d], 1).reshape(bs*2, len_bev, num_bev_level, 2)] *)
Definition hybird (ref_2d : tensor4 Q) : tensor4 Q :=
  mjoin ((λ r, [r; r]) <$> ref_2d).

(** The [ref_2d] of lines 207-208; the arguments [Z] and
    [num_points_in_pillar] keep their defaults. *)
Definition forward_ref_2d (bev_query : T) : returned (tensor4 Q) :=
  get_reference_points 512 512 8%Q 4 "2d" (size1 bev_query).

(** The loop of lines 224-244. *)
Fixpoint run_layers (return_intermediate : bool) (h : heap)
    (call : T → layer_call) (ls : list layer)
    (bev_query output : T) (intermediate : list T) : T * list T :=
  match ls with
  | [] => (output, intermediate)
  | layer :: ls =>
      let output := layer h (call bev_query) in
      let bev_query := output in
      let intermediate :=
        if return_intermediate then intermediate ++ [output]
        else intermediate in
      run_layers return_intermediate h call ls bev_query output intermediate
  end.

(** The arguments of the call of a layer on the running query [q], lines
    225-240. *)
Definition forward_call (key value : T) (bev_pos : option T)
    (hybird_ref_2d : tensor4 Q) (ref_3d : loc) (bev_h bev_w : option nat)
    (spatial_shapes : option (list (nat * nat)))
    (level_start_index : option (list nat))
    (reference_points_cam : tensor4 vec) (bev_mask : tensor4 bool)
    (prev_bev : option T) (q : T) : layer_call :=
  {| lc_query := q; lc_key := key; lc_value := value;
     lc_bev_pos := bev_pos;
     lc_ref_2d := hybird_ref_2d;
     lc_ref_3d := ref_3d;
     lc_bev_h := bev_h; lc_bev_w := bev_w;
     lc_spatial_shapes := spatial_shapes;
     lc_level_start_index := level_start_index;
     lc_reference_points_cam := reference_points_cam;
     lc_bev_mask := bev_mask;
     lc_prev_bev := prev_bev |}.

(** [VoxFormerEncoder.forward].  [ref_3d] and [cam_params] are given (the
    function indexes both), and so is the keyword [img_metas] that line 217
    reads and [point_sampling] does not use. *)
Definition forward (self : VoxFormerEncoder) (h : heap)
    (bev_query key value : T) (ref_3d : loc)
    (bev_h bev_w : option nat) (bev_pos : option T)
    (spatial_shapes : option (list (nat * nat)))
    (level_start_index : option (list nat))
    (cp : cam_params) (prev_bev : option T)
    : option (encoder_output * heap) :=
  let output := bev_query in
  let intermediate := [] in
  ref_2d ← match forward_ref_2d bev_query with
            | Tensor t => Some t
            | PyNone => None
            end;
  let hybird_ref_2d := hybird ref_2d in
  '(reference_points_cam, bev_mask, h) ←
    point_sampling (enc_projector self) h ref_3d (pc_range self) cp;
  let bev_query := permute_102 bev_query in
  let bev_pos := permute_102 <$> bev_pos in
  let call :=
    forward_call key value bev_pos hybird_ref_2d ref_3d bev_h bev_w
      spatial_shapes level_start_index reference_points_cam bev_mask
      prev_bev in
  let '(output, intermediate) :=
    run_layers (return_intermediate self) h call (layers self)
      bev_query output intermediate in
  if return_intermediate self then
    out ← stack intermediate; Some (out, h)
  else Some (Output output, h).

(** [outs] are the outputs of the layers [ls] replayed in sequence from the
    query [q0]: there is one per layer, the first layer is called on [q0]
    and every later one on the output of the layer before it. *)
Definition replayed (h : heap) (call : T → layer_call) (ls : list layer)
    (q0 : T) (outs : list T) : Prop :=
  length outs = length ls ∧
  ∀ i l, ls !! i = Some l →
    ∃ q_in, match i with
            | O => q_in = q0
            | S j => outs !! j = Some q_in
            end ∧
            outs !! i = Some (l h (call q_in)).

End Encoder.

Arguments lc_query {T}.
Arguments lc_ref_2d {T}.
Arguments lc_ref_3d {T}.
Arguments lc_bev_h {T}.
Arguments lc_bev_w {T}.
Arguments Output {T}.
Arguments Stacked {T}.
Arguments stack {T}.
Arguments enc_projector {T}.
Arguments pc_range {T}.
Arguments return_intermediate {T}.
Arguments layers {T}.
Arguments forward {T}.
Arguments run_layers {T}.
Arguments replayed {T}.
Arguments Build_layer_call {T}.
Arguments forward_ref_2d {T}.
Arguments forward_ref_2d : simpl never.
Arguments forward_call {T}.

(** ** [VoxFormerLayer.forward] *)

Section Layer.

Variable T : Type.

(** What an attention module is called with (lines 452-465 and
    475-489). *)
Inductive reference_points_arg :=
  | Ref2d (r : option (tensor4 Q))
  | Ref3d (r : option loc).

Record attn_call := {
  ac_query : T;
  ac_key : option T;
  ac_value : option T;
  ac_identity : option T;
  ac_query_pos : option T;
  ac_key_pos : option T;
  ac_attn_mask : option T;
  ac_key_padding_mask : option T;
  ac_reference_points : reference_points_arg;
  ac_reference_points_cam : option (tensor4 vec);
  ac_mask : option (tensor4 bool);
  ac_spatial_shapes : option (list (nat * nat));
  ac_level_start_index : option (list nat)
}.

(** The layer object.  [num_attn] and [pre_norm] are set by the base class
    [MyCustomBaseTransformerLayer], which is not part of this file. *)
Record VoxFormerLayer := {
  operation_order : list string;
  attentions : list (attn_call → T);
  norms : list (T → T);
  ffns : list (T → option T → T);
  num_attn : nat;
  pre_norm : bool
}.

(** The three shapes the argument [attn_masks] can have. *)
Inductive attn_masks_arg :=
  | MasksNone
  | MasksTensor (m : T)
  | MasksList (ms : list (option T)).

(** The keyword arguments of [forward]. *)
Record layer_args := {
  la_key : option T;
  la_value : option T;
  la_bev_pos : option T;
  la_query_pos : option T;
  la_key_pos : option T;
  la_attn_masks : attn_masks_arg;
  la_query_key_padding_mask : option T;
  la_key_padding_mask : option T;
  la_ref_2d : option (tensor4 Q);
  la_ref_3d : option loc;
  la_bev_h : option nat;
  la_bev_w : option nat;
  la_reference_points_cam : option (tensor4 vec);
  la_mask : option (tensor4 bool);
  la_spatial_shapes : option (list (nat * nat));
  la_level_start_index : option (list nat);
  la_prev_bev : option T
}.

(** Lines 434-446: one mask per attention, and the warnings issued.
    [copy.deepcopy] of a value is the value. *)
Definition expand_attn_masks (self : VoxFormerLayer) (a : attn_masks_arg)
    : option (list (option T) * list string) :=
  match a with
  | MasksNone => Some (replicate (num_attn self) None, [])
  | MasksTensor m =>
      Some (replicate (num_attn self) (Some m),
            ["Use same attn_mask in all attentions in VoxFormerLayer "])
  | MasksList ms =>
      guard (length ms = num_attn self);; Some (ms, [])
  end.

(** The locals the loop of lines 448-496 carries. *)
Record loop_state := {
  query : T;
  identity : T;
  attn_index : nat;
  norm_index : nat;
  ffn_index : nat
}.

(** One pass of the loop body for the tag [layer]. *)
Definition step (self : VoxFormerLayer) (a : layer_args)
    (attn_masks : list (option T)) (st : loop_state) (layer : string)
    : option loop_state :=
  if String.eqb layer "self_attn" then
    attention ← attentions self !! attn_index st;
    attn_mask ← attn_masks !! attn_index st;
    (* [torch.tensor([[bev_h, bev_w]])] needs both numbers *)
    bev_h ← la_bev_h a;
    bev_w ← la_bev_w a;
    let query :=
      attention
        {| ac_query := query st;
           ac_key := la_prev_bev a;
           ac_value := la_prev_bev a;
           ac_identity := if pre_norm self then Some (identity st) else None;
           ac_query_pos := la_bev_pos a;
           ac_key_pos := la_bev_pos a;
           ac_attn_mask := attn_mask;
           ac_key_padding_mask := la_query_key_padding_mask a;
           ac_reference_points := Ref2d (la_ref_2d a);
           ac_reference_points_cam := None;
           ac_mask := None;
           ac_spatial_shapes := Some [(bev_h, bev_w)];
           ac_level_start_index := Some [0] |} in
    Some {| query := query; identity := query;
            attn_index := attn_index st + 1;
            norm_index := norm_index st; ffn_index := ffn_index st |}
  else if String.eqb layer "norm" then
    norm ← norms self !! norm_index st;
    Some {| query := norm (query st); identity := identity st;
            attn_index := attn_index st;
            norm_index := norm_index st + 1; ffn_index := ffn_index st |}
  else if String.eqb layer "cross_attn" then
    attention ← attentions self !! attn_index st;
    attn_mask ← attn_masks !! attn_index st;
    let query :=
      attention
        {| ac_query := query st;
           ac_key := la_key a;
           ac_value := la_value a;
           ac_identity := if pre_norm self then Some (identity st) else None;
           ac_query_pos := la_query_pos a;
           ac_key_pos := la_key_pos a;
           ac_attn_mask := attn_mask;
           ac_key_padding_mask := la_key_padding_mask a;
           ac_reference_points := Ref3d (la_ref_3d a);
           ac_reference_points_cam := la_reference_points_cam a;
           ac_mask := la_mask a;
           ac_spatial_shapes := la_spatial_shapes a;
           ac_level_start_index := la_level_start_index a |} in
    Some {| query := query; identity := query;
            attn_index := attn_index st + 1;
            norm_index := norm_index st; ffn_index := ffn_index st |}
  else if String.eqb layer "ffn" then
    ffn ← ffns self !! ffn_index st;
    Some {| query := ffn (query st)
                       (if pre_norm self then Some (identity st) else None);
            identity := identity st;
            attn_index := attn_index st; norm_index := norm_index st;
            ffn_index := ffn_index st + 1 |}
  else Some st.

(** [for layer in self.operation_order: ...] *)
Fixpoint run_operations (self : VoxFormerLayer) (a : layer_args)
    (attn_masks : list (option T)) (order : list string) (st : loop_state)
    : option loop_state :=
  match order with
  | [] => Some st
  | layer :: order =>
      st ← step self a attn_masks st layer;
      run_operations self a attn_masks order st
  end.

(** [VoxFormerLayer.forward] on the argument [query] (here [query_in]):
    the returned query and the warnings. *)
Definition layer_forward (self : VoxFormerLayer) (query_in : T)
    (a : layer_args) : option (T * list string) :=
  let st := {| query := query_in; identity := query_in;
               attn_index := 0; norm_index := 0; ffn_index := 0 |} in
  '(attn_masks, warnings) ← expand_attn_masks self (la_attn_masks a);
  st ← run_operations self a attn_masks (operation_order self) st;
  Some (query st, warnings).

(** [self] with another [operation_order]. *)
Definition with_operation_order (order : list string)
    (self : VoxFormerLayer) : VoxFormerLayer :=
  {| operation_order := order;
     attentions := attentions self; norms := norms self; ffns := ffns self;
     num_attn := num_attn self; pre_norm := pre_norm self |}.

(** [a] with another [attn_masks] argument. *)
Definition with_attn_masks (m : attn_masks_arg) (a : layer_args)
    : layer_args :=
  {| la_key := la_key a; la_value := la_value a;
     la_bev_pos := la_bev_pos a;
     la_query_pos := la_query_pos a; la_key_pos := la_key_pos a;
     la_attn_masks := m;
     la_query_key_padding_mask := la_query_key_padding_mask a;
     la_key_padding_mask := la_key_padding_mask a;
     la_ref_2d := la_ref_2d a; la_ref_3d := la_ref_3d a;
     la_bev_h := la_bev_h a; la_bev_w := la_bev_w a;
     la_reference_points_cam := la_reference_points_cam a;
     la_mask := la_mask a;
     la_spatial_shapes := la_spatial_shapes a;
     la_level_start_index := la_level_start_index a;
     la_prev_bev := la_prev_bev a |}.

(** The tags the loop body has a branch for. *)
Definition known_tag (layer : string) : bool :=
  String.eqb layer "self_attn" || String.eqb layer "norm"
  || String.eqb layer "cross_attn" || String.eqb layer "ffn".

(** How often [tag] occurs in an operation order. *)
Definition count_tag (tag : string) (order : list string) : nat :=
  length (filter (λ l, l = tag) order).

(** A layer whose sub-modules match its operation order, as the base class
    checks at construction: [num_attn] counts the attention tags, there are
    that many attention modules, and enough norms and feed-forward blocks;
    a layer with a ['self_attn'] is given the grid size. *)
Definition well_configured (self : VoxFormerLayer) (a : layer_args) : Prop :=
  count_tag "self_attn" (operation_order self)
  + count_tag "cross_attn" (operation_order self) = num_attn self ∧
  num_attn self ≤ length (attentions self) ∧
  count_tag "norm" (operation_order self) ≤ length (norms self) ∧
  count_tag "ffn" (operation_order self) ≤ length (ffns self) ∧
  (0 < count_tag "self_attn" (operation_order self) →
   is_Some (la_bev_h a) ∧ is_Some (la_bev_w a)).

End Layer.

Arguments MasksNone {T}.
Arguments MasksTensor {T}.
Arguments MasksList {T}.
Arguments operation_order {T}.
Arguments attentions {T}.
Arguments norms {T}.
Arguments ffns {T}.
Arguments num_attn {T}.
Arguments pre_norm {T}.
Arguments la_attn_masks {T}.
Arguments la_bev_h {T}.
Arguments la_bev_w {T}.
Arguments expand_attn_masks {T}.
Arguments query {T}.
Arguments identity {T}.
Arguments attn_index {T}.
Arguments norm_index {T}.
Arguments ffn_index {T}.
Arguments step {T}.
Arguments run_operations {T}.
Arguments layer_forward {T}.
Arguments with_operation_order {T}.
Arguments with_attn_masks {T}.
Arguments well_configured {T}.

(** ** The encoder calling a [VoxFormerLayer]

    Lines 225-240 call a layer with [bev_query], [key] and [value] by
    position and eleven arguments by keyword, and pass on the encoder's own
    [**kwargs].  Of the parameters of [VoxFormerLayer.forward] the call
    names neither [query_pos], [key_pos], [attn_masks], the two padding
    masks nor [mask]: they are bound only when the encoder's [**kwargs]
    hold them, and keep their default [None] otherwise.  The keyword
    [bev_mask] is no parameter of [VoxFormerLayer.forward] and lands in
    its [**kwargs]. *)

(** What the encoder's [**kwargs] bind of the layer's parameters. *)
Record layer_kwargs (T : Type) := {
  kw_query_pos : option T;
  kw_key_pos : option T;
  kw_attn_masks : attn_masks_arg T;
  kw_query_key_padding_mask : option T;
  kw_key_padding_mask : option T;
  kw_mask : option (tensor4 bool)
}.

Arguments kw_query_pos {T}.
Arguments kw_key_pos {T}.
Arguments kw_attn_masks {T}.
Arguments kw_query_key_padding_mask {T}.
Arguments kw_key_padding_mask {T}.
Arguments kw_mask {T}.

(** The parameters of [VoxFormerLayer.forward] as the call of lines
    225-240 binds them. *)
Definition layer_args_of_call {T} (kw : layer_kwargs T) (c : layer_call T)
    : layer_args T :=
  {| la_key := Some (lc_key T c);
     la_value := Some (lc_value T c);
     la_bev_pos := lc_bev_pos T c;
     la_query_pos := kw_query_pos kw;
     la_key_pos := kw_key_pos kw;
     la_attn_masks := kw_attn_masks kw;
     la_query_key_padding_mask := kw_query_key_padding_mask kw;
     la_key_padding_mask := kw_key_padding_mask kw;
     la_ref_2d := Some (lc_ref_2d c);
     la_ref_3d := Some (lc_ref_3d c);
     la_bev_h := lc_bev_h c;
     la_bev_w := lc_bev_w c;
     la_reference_points_cam := Some (lc_reference_points_cam T c);
     la_mask := kw_mask kw;
     la_spatial_shapes := lc_spatial_shapes T c;
     la_level_start_index := lc_level_start_index T c;
     la_prev_bev := lc_prev_bev T c |}.

(** The encoder layer [l] is the [VoxFormerLayer] [vl]: whenever
    [vl.forward] returns on the arguments of a call, [l] returns that
    query. *)
Definition is_VoxFormerLayer {T} (kw : layer_kwargs T)
    (vl : VoxFormerLayer T) (l : layer T) : Prop :=
  ∀ h c out w,
    layer_forward vl (lc_query c) (layer_args_of_call kw c) = Some (out, w) →
    l h c = out.

(** The arguments of the temporal self-attention when the encoder's call
    [c] reaches a ['self_attn'] step of the layer in state [st], lines
    452-465. *)
Definition self_attn_call_of {T} (kw : layer_kwargs T)
    (vl : VoxFormerLayer T) (c : layer_call T) (st : loop_state T)
    (attn_mask : option T) (bev_h bev_w : nat) : attn_call T :=
  {| ac_query := query st;
     ac_key := lc_prev_bev T c;
     ac_value := lc_prev_bev T c;
     ac_identity := if pre_norm vl then Some (identity st) else None;
     ac_query_pos := lc_bev_pos T c;
     ac_key_pos := lc_bev_pos T c;
     ac_attn_mask := attn_mask;
     ac_key_padding_mask := kw_query_key_padding_mask kw;
     ac_reference_points := Ref2d (Some (lc_ref_2d c));
     ac_reference_points_cam := None;
     ac_mask := None;
     ac_spatial_shapes := Some [(bev_h, bev_w)];
     ac_level_start_index := Some [0] |}.

(** ** Calling [forward] again

    Two successive calls of [VoxFormerEncoder.forward] on the same
    arguments, the second in the state the first left, return the same
    output. *)
Definition repeatable {T} (size1 : T → nat) (permute_102 : T → T)
    (self : VoxFormerEncoder T) (h : heap) (bev_query key value : T)
    (ref_3d : loc) (bev_h bev_w : option nat) (bev_pos : option T)
    (spatial_shapes : option (list (nat * nat)))
    (level_start_index : option (list nat))
    (cp : cam_params) (prev_bev : option T) : Prop :=
  ∀ out1 h1 out2 h2,
    forward size1 permute_102 self h bev_query key value ref_3d
      bev_h bev_w bev_pos spatial_shapes level_start_index cp prev_bev
    = Some (out1, h1) →
    forward size1 permute_102 self h1 bev_query key value ref_3d
      bev_h bev_w bev_pos spatial_shapes level_start_index cp prev_bev
    = Some (out2, h2) →
    out1 = out2.

(** What [forward] makes of the outputs [outs] of its layers, lines
    246-249. *)
Definition forward_result {T} (self : VoxFormerEncoder T) (bev_query : T)
    (outs : list T) (h' : heap) : option (encoder_output T * heap) :=
  if return_intermediate self then out ← stack outs; Some (out, h')
  else Some (Output (default bev_query (last outs)), h').


(** ** A minimal fixture

    One batch item, one camera with identity rotation, zero translation,
    identity intrinsics, identity post-transform and identity augmentation,
    a 1x1 image, the unit cube as point-cloud range, and one reference
    point [(0.5, 0.5, 1)], which lies at depth 1 in front of the camera. *)

Definition I3 : matrix := [[1; 0; 0]; [0; 1; 0]; [0; 0; 1]]%Q.

Definition identity_camera : cam_params :=
  {| rots := [[I3]]; trans := [[ [0; 0; 0]%Q ]]; intrins := [[I3]];
     post_rots := [[I3]]; post_trans := [[ [0; 0; 0]%Q ]]; bda := [I3] |}.

Definition unit_projector : projector :=
  {| final_dim := (1, 1)%Q; d_bound := [2; 58; 1 # 2]%Q |}.

Definition unit_range : list Q := [0; 0; 0; 1; 1; 1]%Q.

(** The point-cloud range of the SemanticKITTI configuration. *)
Definition kitti_range : list Q := [0; - (256 # 10); - (2); 512 # 10; 256 # 10; 44 # 10]%Q.

Definition one_point : heap := {[ 0%nat := [[[ [1 # 2; 1 # 2; 1]%Q ]]] ]}.

(** The same fixture with the reference point behind the camera, at
    depth [-1]. *)
Definition point_behind : heap := {[ 0%nat := [[[ [1 # 2; 1 # 2; - (1)]%Q ]]] ]}.

(** A layer fixture over numbers: an encoder layer that adds [k] to the
    running query, and an attention layer with the usual operation order
    whose sub-modules add fixed amounts. *)
Definition add_layer (k : nat) : layer nat := λ _ c, lc_query c + k.

Definition two_layer_encoder (ri : bool) : VoxFormerEncoder nat :=
  {| enc_projector := unit_projector; pc_range := unit_range;
     num_points_in_pillar := 1; return_intermediate := ri;
     layers := [add_layer 1; add_layer 10] |}.

Definition counting_layer (order : list string) : VoxFormerLayer nat :=
  {| operation_order := order;
     attentions := [λ c, ac_query nat c + 1; λ c, ac_query nat c + 10];
     norms := [λ q, q * 2; λ q, q * 2; λ q, q * 2];
     ffns := [λ q _, q + 100];
     num_attn := 2; pre_norm := false |}.

Definition usual_order : list string :=
  ["self_attn"; "norm"; "cross_attn"; "norm"; "ffn"; "norm"].

Definition plain_args (m : attn_masks_arg nat) : layer_args nat :=
  {| la_key := Some 0; la_value := Some 0; la_bev_pos := None;
     la_query_pos := None; la_key_pos := None;
     la_attn_masks := m;
     la_query_key_padding_mask := None; la_key_padding_mask := None;
     la_ref_2d := None; la_ref_3d := Some 0;
     la_bev_h := Some 128; la_bev_w := Some 128;
     la_reference_points_cam := None; la_mask := None;
     la_spatial_shapes := None; la_level_start_index := None;
     la_prev_bev := None |}.

(** A layer fixture that returns the first projected point it is handed,
    and an encoder with this one layer and the SemanticKITTI range. *)
Definition probe_layer : layer vec :=
  λ _ c, default [] (entry (lc_reference_points_cam vec c) 0 0 0 0).

Definition probe_encoder : VoxFormerEncoder vec :=
  {| enc_projector := unit_projector; pc_range := kitti_range;
     num_points_in_pillar := 1; return_intermediate := false;
     layers := [probe_layer] |}.

(** No extra keyword arguments. *)
Definition no_kwargs : layer_kwargs nat :=
  {| kw_query_pos := None; kw_key_pos := None; kw_attn_masks := MasksNone;
     kw_query_key_padding_mask := None; kw_key_padding_mask := None;
     kw_mask := None |}.

(** The encoder layer that [counting_layer usual_order] is. *)
Definition counting_encoder_layer : layer nat :=
  λ _ c, (((lc_query c + 1) * 2 + 10) * 2 + 100) * 2.

(** ** Shapes *)

(** [t] has the shape [(n1, n2, n3, n4)]. *)
Definition has_shape4 {A} (n1 n2 n3 n4 : nat) (t : tensor4 A) : Prop :=
  length t = n1 ∧
  Forall (λ a, length a = n2 ∧
    Forall (λ b, length b = n3 ∧
      Forall (λ c, length c = n4) b) a) t.

(** [t] has the shape [(n1, n2, n3)]. *)
Definition has_shape3 {A} (n1 n2 n3 : nat) (t : tensor3 A) : Prop :=
  length t = n1 ∧
  Forall (λ a, length a = n2 ∧ Forall (λ b, length b = n3) a) t.

(** ** The DFA3D entry in terms of the base entry *)

(** The sample of the base projector with the normalized depth
    [(d - d0) / (d1 - d0)] appended as third channel, read as [points_d]
    and tested by the mask. *)
Definition add_depth_channel (d0 d1 : Q) (smp : sample) : sample :=
  let depth_norm := ((raw_depth smp - d0) / (d1 - d0))%Q in
  {| points_d := depth_norm;
     raw_depth := raw_depth smp;
     reference_points_cam := reference_points_cam smp ++ [depth_norm];
     volume_mask :=
       match reference_points_cam smp with
       | [x; y] => visible depth_norm x y
       | _ => false
       end |}.

(** ** Variations of the encoder object *)

(** [self] with another [return_intermediate] flag. *)
Definition with_return_intermediate {T} (ri : bool)
    (self : VoxFormerEncoder T) : VoxFormerEncoder T :=
  {| enc_projector := enc_projector self;
     pc_range := pc_range self;
     num_points_in_pillar := num_points_in_pillar T self;
     return_intermediate := ri;
     layers := layers self |}.

(** The outputs of the layers [ls] called in sequence, the first on [q]
    and each later one on the output before it. *)
Fixpoint layer_outputs {T} (h : heap) (call : T → layer_call T)
    (ls : list (layer T)) (q : T) : list T :=
  match ls with
  | [] => []
  | l :: ls => l h (call q) :: layer_outputs h call ls (l h (call q))
  end.

(** An encoder fixture without layers. *)
Definition no_layer_encoder (ri : bool) : VoxFormerEncoder nat :=
  {| enc_projector := unit_projector; pc_range := unit_range;
     num_points_in_pillar := 1; return_intermediate := ri;
     layers := [] |}.

(** ** One entry of the projection, from the arguments

    [dep], [x] and [y] are the camera-space depth and the two pixel
    coordinates the base projector computes for camera [n], batch item [b],
    sample point [q] and height level [d]: the point [p] that the call
    left in [reference_points] is taken through the inverse [bda] of its
    batch item, the translation, inverse rotation and intrinsics of its
    camera (lines 127-143), which gives [(cx, cy, dep, ..)]; [cx] and [cy]
    are divided by [max(dep, eps)], taken through the 2x2 block of
    [post_rots] and the first two entries of [post_trans], and divided by
    the image width and height (lines 145-155). *)
Definition projected_from (self : projector) (cp : cam_params)
    (t' : tensor4 Q) (n b q d : nat) (dep x y : Q) : Prop :=
  ∃ p mb ib mr ir tr K cx cy rest r11 r12 ra r21 r22 rb rc t1 t2 tc,
    entry3 t' b d q = Some p ∧
    bda cp !! b = Some mb ∧ inverse mb = Some ib ∧
    rots cp !! b ≫= (.!! n) = Some mr ∧ inverse mr = Some ir ∧
    trans cp !! b ≫= (.!! n) = Some tr ∧
    intrins cp !! b ≫= (.!! n) = Some K ∧
    camera_space (Nat.eqb (last_dim (bda cp)) 4)
      (Nat.eqb (dim_3 (intrins cp)) 4) ib tr ir K p
    = cx :: cy :: dep :: rest ∧
    post_rots cp !! b ≫= (.!! n)
    = Some ((r11 :: r12 :: ra) :: (r21 :: r22 :: rb) :: rc) ∧
    post_trans cp !! b ≫= (.!! n) = Some (t1 :: t2 :: tc) ∧
    (x == (r11 * (cx / divisor dep) + r12 * (cy / divisor dep) + t1)
          / (final_dim self).2)%Q ∧
    (y == (r21 * (cx / divisor dep) + r22 * (cy / divisor dep) + t2)
          / (final_dim self).1)%Q.

Local Open Scope Q_scope.

(** ** Lemmas on the numeric helpers *)

Lemma Qltb_lt x y : Qltb x y = true ↔ x < y.
Proof.
  unfold Qltb. rewrite Qlt_alt. destruct (x ?= y); split; congruence.
Qed.

Lemma Qltb_ge x y : Qltb x y = false ↔ y <= x.
Proof.
  rewrite <- not_true_iff_false, Qltb_lt. split.
  - apply Qnot_lt_le.
  - intros Hle Hlt. exact (Qlt_not_le _ _ Hlt Hle).
Qed.

Lemma Qofnat_S n : Qofnat (S n) == Qofnat n + 1.
Proof.
  unfold Qofnat. rewrite Nat2Z.inj_succ, <- Z.add_1_r, inject_Z_plus.
  reflexivity.
Qed.

Lemma Qofnat_pos n : (0 < n)%nat → 0 < Qofnat n.
Proof.
  intros Hn. unfold Qofnat. change 0 with (inject_Z 0).
  rewrite <- Zlt_Qlt. lia.
Qed.

Lemma length_linspace a b n : length (linspace a b n) = n.
Proof.
  destruct n as [|[|n]]; [done..|].
  unfold linspace. by rewrite length_fmap, length_seq.
Qed.

Lemma lookup_linspace a b n i :
  (i < n)%nat →
  ∃ v, linspace a b n !! i = Some v ∧
       v == a + Qofnat i * ((b - a) / Qofnat (n - 1)).
Proof.
  intros Hi. destruct n as [|[|n]]; [lia| |].
  - assert (i = 0%nat) as -> by lia. exists a. split; [done|].
    unfold Qofnat. simpl. ring.
  - eexists. split; [|reflexivity].
    unfold linspace. rewrite list_lookup_fmap, lookup_seq_lt by done.
    reflexivity.
Qed.

(** The [col]-th of [W] cell centres, divided by [W]. *)
Lemma centre_coordinate W col v :
  (col < W)%nat →
  v == (1#2) + Qofnat col * ((Qofnat W - (1#2) - (1#2)) / Qofnat (W - 1)) →
  v / Qofnat W == (Qofnat col + (1#2)) / Qofnat W.
Proof.
  intros Hcol ->. destruct W as [|[|W]]; [lia| |].
  - assert (col = 0%nat) as -> by lia. unfold Qofnat. simpl.
    apply Qdiv_comp; [ring|reflexivity].
  - apply Qdiv_comp; [|reflexivity].
    replace (S (S W) - 1)%nat with (S W) by lia.
    rewrite (Qofnat_S (S W)).
    assert (0 < Qofnat (S W)) by (apply Qofnat_pos; lia).
    field. lra.
Qed.

(** ** The 3-D reference grid, entry by entry *)

Lemma lookup_stack_last3 (xs ys zs : tensor3 Q) k row col x y z :
  entry3 xs k row col = Some x →
  entry3 ys k row col = Some y →
  entry3 zs k row col = Some z →
  entry3 (stack_last3 xs ys zs) k row col = Some [x; y; z].
Proof.
  unfold stack_last3, entry3. intros Hx Hy Hz.
  repeat (rewrite lookup_zip_with).
  destruct (xs !! k) as [xk|]; [|done].
  destruct (ys !! k) as [yk|]; [|done].
  destruct (zs !! k) as [zk|]; [|done]. simpl in *.
  repeat (rewrite lookup_zip_with).
  destruct (xk !! row) as [xr|]; [|done].
  destruct (yk !! row) as [yr|]; [|done].
  destruct (zk !! row) as [zr|]; [|done]. simpl in *.
  rewrite lookup_zip_with, lookup_zip_with. rewrite Hx, Hy, Hz. done.
Qed.

Lemma lookup_div_all d (t : tensor3 Q) k row col :
  entry3 (div_all d t) k row col = (λ v, v / d) <$> entry3 t k row col.
Proof.
  unfold div_all, entry3. rewrite list_lookup_fmap.
  destruct (t !! k) as [tk|]; [|done]. simpl.
  rewrite list_lookup_fmap. destruct (tk !! row) as [tr|]; [|done]. simpl.
  by rewrite list_lookup_fmap.
Qed.

Lemma lookup_expand_0 H W l k row col v :
  l !! k = Some v → (row < H)%nat → (col < W)%nat →
  entry3 (expand_0 H W l) k row col = Some v.
Proof.
  intros Hk Hrow Hcol. unfold expand_0, entry3.
  rewrite list_lookup_fmap, Hk. simpl.
  rewrite lookup_replicate_2 by done. simpl.
  by rewrite lookup_replicate_2.
Qed.

Lemma lookup_expand_1 D W l k row col v :
  l !! row = Some v → (k < D)%nat → (col < W)%nat →
  entry3 (expand_1 D W l) k row col = Some v.
Proof.
  intros Hrow Hk Hcol. unfold expand_1, entry3.
  rewrite lookup_replicate_2 by done. simpl.
  rewrite list_lookup_fmap, Hrow. simpl.
  by rewrite lookup_replicate_2.
Qed.

Lemma lookup_expand_2 D H l k row col v :
  l !! col = Some v → (k < D)%nat → (row < H)%nat →
  entry3 (expand_2 D H l) k row col = Some v.
Proof.
  intros Hcol Hk Hrow. unfold expand_2, entry3.
  rewrite lookup_replicate_2 by done. simpl.
  by rewrite lookup_replicate_2.
Qed.

(** Every row of the stacked grid has [W] cells, so the row-major merge
    puts cell [(row, col)] at position [row * W + col]. *)
Lemma lookup_flatten_grid (t : tensor3 vec) W k row col p :
  Forall (Forall (λ r, length r = W)) t →
  (col < W)%nat →
  entry3 t k row col = Some p →
  ∃ fk, flatten_grid t !! k = Some fk ∧ fk !! (row * W + col)%nat = Some p.
Proof.
  intros Hlen Hcol Hp. unfold flatten_grid, entry3 in *.
  rewrite list_lookup_fmap.
  destruct (t !! k) as [tk|] eqn:Hk; [|done]. simpl in *.
  destruct (tk !! row) as [tr|] eqn:Hr; [|done]. simpl in *.
  eexists. split; [done|].
  apply join_lookup_Some_same_length'; [|done|by eauto].
  eapply Forall_lookup_1 in Hlen; [|done]. done.
Qed.

Lemma rows_of_length_stack_last3 W (xs ys zs : tensor3 Q) :
  rows_of_length W xs → rows_of_length W ys → rows_of_length W zs →
  rows_of_length W (stack_last3 xs ys zs).
Proof.
  unfold rows_of_length, stack_last3. intros Hx Hy Hz.
  apply Forall_lookup. intros k sk Hsk.
  apply lookup_zip_with_Some in Hsk as (xk & yzk & -> & Hxk & Hyzk).
  apply lookup_zip_with_Some in Hyzk as (yk & zk & -> & Hyk & Hzk).
  apply Forall_lookup. intros r sr Hsr.
  apply lookup_zip_with_Some in Hsr as (xr & yzr & -> & Hxr & Hyzr).
  apply lookup_zip_with_Some in Hyzr as (yr & zr & -> & Hyr & Hzr).
  rewrite length_zip_with, length_zip.
  eapply Forall_lookup_1 in Hx, Hy, Hz; [|done..].
  eapply Forall_lookup_1 in Hx, Hy, Hz; [|done..].
  simpl in *. lia.
Qed.

Lemma rows_of_length_div_all W d (t : tensor3 Q) :
  rows_of_length W t → rows_of_length W (div_all d t).
Proof.
  unfold rows_of_length, div_all. intros Ht.
  apply Forall_fmap. eapply Forall_impl; [done|]. intros tk Htk. simpl.
  apply Forall_fmap. eapply Forall_impl; [done|]. intros tr Htr. simpl.
  by rewrite length_fmap.
Qed.

Lemma rows_of_length_expand_0 H W l : rows_of_length W (expand_0 H W l).
Proof.
  unfold rows_of_length, expand_0. apply Forall_fmap, Forall_true.
  intros z. simpl. apply Forall_replicate. by rewrite length_replicate.
Qed.

Lemma rows_of_length_expand_1 D W l : rows_of_length W (expand_1 D W l).
Proof.
  unfold rows_of_length, expand_1. apply Forall_replicate.
  apply Forall_fmap, Forall_true. intros y. simpl.
  by rewrite length_replicate.
Qed.

Lemma rows_of_length_expand_2 D H l :
  rows_of_length (length l) (expand_2 D H l).
Proof.
  unfold rows_of_length, expand_2. by do 2 apply Forall_replicate.
Qed.

(** Where [get_reference_points(.., dim='3d')] puts each point, and what it
    is made of: the three [linspace] samples divided by [W], [H], [Z]. *)
Lemma get_reference_points_3d_entry H W Z npp bs b k row col vx vy vz :
  (b < bs)%nat → (k < npp)%nat → (row < H)%nat → (col < W)%nat →
  linspace (1#2) (Qofnat W - (1#2)) W !! col = Some vx →
  linspace (1#2) (Qofnat H - (1#2)) H !! row = Some vy →
  linspace (1#2) (Z - (1#2)) npp !! k = Some vz →
  ∃ t, get_reference_points H W Z npp "3d" bs = Tensor t ∧
       entry3 t b k (row * W + col)%nat
       = Some [vx / Qofnat W; vy / Qofnat H; vz / Z].
Proof.
  intros Hb Hk Hrow Hcol Hvx Hvy Hvz.
  unfold get_reference_points. simpl. eexists. split; [done|].
  edestruct (lookup_flatten_grid
    (stack_last3
       (div_all (Qofnat W)
          (expand_2 npp H (linspace (1#2) (Qofnat W - (1#2)) W)))
       (div_all (Qofnat H)
          (expand_1 npp W (linspace (1#2) (Qofnat H - (1#2)) H)))
       (div_all Z (expand_0 H W (linspace (1#2) (Z - (1#2)) npp))))
    W k row col) as (fk & Hfk & Hp); [|done| |].
  - apply rows_of_length_stack_last3; apply rows_of_length_div_all.
    + pose proof (rows_of_length_expand_2 npp H
        (linspace (1#2) (Qofnat W - (1#2)) W)) as Hl.
      by rewrite length_linspace in Hl.
    + apply rows_of_length_expand_1.
    + apply rows_of_length_expand_0.
  - apply lookup_stack_last3; rewrite lookup_div_all.
    + by erewrite lookup_expand_2.
    + by erewrite lookup_expand_1.
    + by erewrite lookup_expand_0.
  - unfold entry3. rewrite lookup_replicate_2 by done. simpl.
    rewrite Hfk. simpl. exact Hp.
Qed.

(** ** Tensors entry by entry *)

Lemma entry_map4 {A B} (f : A → B) (t : tensor4 A) n b q d :
  entry (map4 f t) n b q d = f <$> entry t n b q d.
Proof.
  unfold entry, map4. rewrite list_lookup_fmap.
  destruct (t !! n) as [tn|]; [|done]. simpl.
  rewrite list_lookup_fmap. destruct (tn !! b) as [tb|]; [|done]. simpl.
  rewrite list_lookup_fmap. destruct (tb !! q) as [tq|]; [|done]. simpl.
  by rewrite list_lookup_fmap.
Qed.

Lemma mapM_seq_lookup {A} (f : nat → option A) n l i y :
  mapM f (seq 0 n) = Some l → l !! i = Some y →
  f i = Some y ∧ (i < n)%nat.
Proof.
  intros Hm Hi. apply mapM_Some_1 in Hm.
  destruct (Forall2_lookup_r _ _ _ _ _ Hm Hi) as (j & Hj & Hf).
  apply lookup_seq in Hj as [-> ?]. done.
Qed.

Lemma mapM_seq_is_Some {A} (f : nat → option A) n :
  (∀ i, (i < n)%nat → is_Some (f i)) → is_Some (mapM f (seq 0 n)).
Proof.
  intros Hf. apply mapM_is_Some, Forall_forall. intros i Hi.
  apply elem_of_seq in Hi. apply Hf. lia.
Qed.

(** Every entry of the tabulated result is the projection of one reference
    point through the parameters of its batch item and camera. *)
Lemma tabulate_samples_entry proj cp inv_bda inv_rots t s n b q d smp :
  tabulate_samples proj cp inv_bda inv_rots t = Some s →
  entry s n b q d = Some smp →
  ∃ p ib tr ir K pr pt,
    entry3 t b d q = Some p ∧
    inv_bda !! b = Some ib ∧
    trans cp !! b ≫= (.!! n) = Some tr ∧
    inv_rots !! b ≫= (.!! n) = Some ir ∧
    intrins cp !! b ≫= (.!! n) = Some K ∧
    post_rots cp !! b ≫= (.!! n) = Some pr ∧
    post_trans cp !! b ≫= (.!! n) = Some pt ∧
    proj pr pt
      (camera_space (Nat.eqb (last_dim (bda cp)) 4)
         (Nat.eqb (dim_3 (intrins cp)) 4) ib tr ir K p) = Some smp.
Proof.
  unfold tabulate_samples, entry. intros Ht He.
  repeat case_guard; simpl in Ht; try done.
  destruct (s !! n) as [sn|] eqn:Hn; [|done]. simpl in He.
  destruct (sn !! b) as [sb|] eqn:Hb; [|done]. simpl in He.
  destruct (sb !! q) as [sq|] eqn:Hq; [|done]. simpl in He.
  destruct (mapM_seq_lookup _ _ _ _ _ Ht Hn) as [Hn' _].
  destruct (mapM_seq_lookup _ _ _ _ _ Hn' Hb) as [Hb' _].
  destruct (mapM_seq_lookup _ _ _ _ _ Hb' Hq) as [Hq' _].
  destruct (mapM_seq_lookup _ _ _ _ _ Hq' He) as [Hd' _].
  clear -Hd'.
  destruct (entry3 t b d q) as [p|]; [|done].
  destruct (inv_bda !! b) as [ib|]; [|done].
  destruct (trans cp !! b ≫= (.!! n)) as [tr|]; [|done].
  destruct (inv_rots !! b ≫= (.!! n)) as [ir|]; [|done].
  destruct (intrins cp !! b ≫= (.!! n)) as [K|]; [|done].
  destruct (post_rots cp !! b ≫= (.!! n)) as [pr|]; [|done].
  destruct (post_trans cp !! b ≫= (.!! n)) as [pt|]; [|done].
  simpl in Hd'. by eexists _, _, _, _, _, _, _.
Qed.

(** ** The mask test and the divisor *)

Lemma visible_spec d x y :
  visible d x y = true ↔
  eps < d ∧ (eps < x ∧ x < 1 - eps) ∧ (eps < y ∧ y < 1 - eps).
Proof.
  unfold visible, Qgtb. rewrite !andb_true_iff, !Qltb_lt. tauto.
Qed.

Lemma eps_pos : 0 < eps.
Proof. reflexivity. Qed.

Lemma visible_depth_gate d x y : d <= eps → visible d x y = false.
Proof.
  intros Hd. apply not_true_iff_false. rewrite visible_spec.
  intros (Hlt & _). exact (Qlt_not_le _ _ Hlt Hd).
Qed.

Lemma visible_outside d x y :
  x <= 0 ∨ 1 <= x ∨ y <= 0 ∨ 1 <= y → visible d x y = false.
Proof.
  intros Hout. apply not_true_iff_false. rewrite visible_spec.
  pose proof eps_pos. intros (_ & [? ?] & [? ?]).
  destruct Hout as [?|[?|[?|?]]]; lra.
Qed.

Lemma divisor_spec d : divisor d == Qmax d eps ∧ eps <= divisor d.
Proof.
  unfold divisor, maximum. destruct (Qltb d eps) eqn:Hlt.
  - apply Qltb_lt in Hlt. split; [|lra].
    symmetry. apply Q.max_r. lra.
  - apply Qltb_ge in Hlt. split; [|lra].
    symmetry. by apply Q.max_l.
Qed.

Lemma divisor_pos d : 0 < divisor d.
Proof.
  pose proof (divisor_spec d) as [_ ?]. pose proof eps_pos. lra.
Qed.

(** ** One entry of the base projection *)

Lemma length_post_transform pr pt c :
  (length (post_transform pr pt c) ≤ 2)%nat.
Proof.
  unfold post_transform, vec_add, matvec.
  rewrite length_zip_with, length_fmap, !length_take. lia.
Qed.

Lemma project_sample ogfH ogfW pr pt cam smp :
  project ogfH ogfW pr pt cam = Some smp →
  ∃ x y,
    cam !! 2%nat = Some (raw_depth smp) ∧
    points_d smp = raw_depth smp ∧
    reference_points_cam smp = [x; y] ∧
    volume_mask smp = visible (raw_depth smp) x y.
Proof.
  unfold project. intros Hp.
  destruct (cam !! 2%nat) as [d|]; [|done]. simpl in Hp.
  set (c := alter _ 1%nat (alter _ 0%nat (post_transform pr pt _))) in Hp.
  assert (length c ≤ 2)%nat as Hlen.
  { unfold c. rewrite !length_alter. apply length_post_transform. }
  destruct c as [|x [|y [|z c]]]; simpl in *; try done; [|lia].
  injection Hp as <-. by exists x, y.
Qed.

Lemma point_sampling_samples_entry proj h l pc cp s h' n b q d smp :
  point_sampling_samples proj h l pc cp = Some (s, h') →
  entry s n b q d = Some smp →
  ∃ pr pt cam, proj pr pt cam = Some smp.
Proof.
  unfold point_sampling_samples. intros Hs He.
  destruct (denormalize pc l h) as [h1|]; [|done]. simpl in Hs.
  destruct (h1 !! l) as [t|]; [|done]. simpl in Hs.
  destruct (mapM inverse (bda cp)) as [ib|]; [|done]. simpl in Hs.
  destruct (mapM (mapM inverse) (rots cp)) as [ir|]; [|done]. simpl in Hs.
  destruct (tabulate_samples proj cp ib ir t) as [s'|] eqn:Ht; [|done].
  simpl in Hs. injection Hs as <- <-.
  destruct (tabulate_samples_entry _ _ _ _ _ _ _ _ _ _ _ Ht He)
    as (? & ? & ? & ? & ? & pr & pt & _ & _ & _ & _ & _ & _ & _ & Hp).
  eauto.
Qed.

(** ** The projection never fails on inputs of consistent shape *)

Lemma mapM_seq_lookup_lt {A} (f : nat → option A) n l i :
  mapM f (seq 0 n) = Some l → (i < n)%nat →
  ∃ y, l !! i = Some y ∧ f i = Some y.
Proof.
  intros Hm Hi. apply mapM_Some_1 in Hm.
  destruct (Forall2_lookup_l _ _ _ i i Hm) as (y & Hy & Hf).
  { by apply lookup_seq_lt. }
  eauto.
Qed.

Lemma length_rescale_channel c s o t :
  length (rescale_channel c s o t) = length t.
Proof. unfold rescale_channel. by rewrite length_fmap. Qed.

Lemma size_1_rescale_channel c s o t :
  size_1 (rescale_channel c s o t) = size_1 t.
Proof.
  unfold rescale_channel. destruct t as [|tb t]; [done|].
  simpl. by rewrite length_fmap.
Qed.

Lemma size_2_rescale_channel c s o t :
  size_2 (rescale_channel c s o t) = size_2 t.
Proof.
  unfold rescale_channel. destruct t as [|[|td tb] t]; [done..|].
  simpl. by rewrite length_fmap.
Qed.

Lemma entry3_rescale_channel c s o (t : tensor4 Q) b d q :
  entry3 (rescale_channel c s o t) b d q
  = alter (λ v, v * s + o) c <$> entry3 t b d q.
Proof.
  unfold rescale_channel, entry3. rewrite list_lookup_fmap.
  destruct (t !! b) as [tb|]; [|done]. simpl.
  rewrite list_lookup_fmap. destruct (tb !! d) as [td|]; [|done]. simpl.
  by rewrite list_lookup_fmap.
Qed.

Lemma rectangular_entry3 (t : tensor4 Q) b d q :
  rectangular t → (b < length t)%nat → (d < size_1 t)%nat →
  (q < size_2 t)%nat → is_Some (entry3 t b d q).
Proof.
  unfold rectangular, entry3. intros Hr Hb Hd Hq.
  destruct (lookup_lt_is_Some_2 t b Hb) as [tb Htb]. rewrite Htb. simpl.
  destruct (Forall_lookup_1 _ _ _ _ Hr Htb) as [Hlen Hrows].
  destruct (lookup_lt_is_Some_2 tb d) as [td Htd]; [lia|].
  rewrite Htd. simpl.
  pose proof (Forall_lookup_1 _ _ _ _ Hrows Htd) as Hlen'. simpl in Hlen'.
  apply lookup_lt_is_Some_2. lia.
Qed.

(** What [denormalize] leaves on the heap. *)
Lemma denormalize_spec pc l h t :
  h !! l = Some t → (6 ≤ length pc)%nat →
  ∃ r0 r1 r2 r3 r4 r5,
    pc !! 0%nat = Some r0 ∧ pc !! 1%nat = Some r1 ∧ pc !! 2%nat = Some r2 ∧
    pc !! 3%nat = Some r3 ∧ pc !! 4%nat = Some r4 ∧ pc !! 5%nat = Some r5 ∧
    denormalize pc l h
    = Some (<[l := rescale_channel 2 (r5 - r2) r2
                     (rescale_channel 1 (r4 - r1) r1
                        (rescale_channel 0 (r3 - r0) r0 t))]> h).
Proof.
  intros Ht Hlen.
  destruct pc as [|r0 [|r1 [|r2 [|r3 [|r4 [|r5 pc]]]]]]; simpl in Hlen;
    try lia.
  exists r0, r1, r2, r3, r4, r5. repeat (split; [done|]).
  unfold denormalize. rewrite Ht. simpl.
  rewrite lookup_insert_eq. simpl. rewrite lookup_insert_eq. simpl.
  by rewrite !insert_insert_eq.
Qed.

Lemma denormalize_inv pc l h h' :
  denormalize pc l h = Some h' →
  ∃ t, h !! l = Some t ∧ (6 ≤ length pc)%nat.
Proof.
  unfold denormalize. intros Hd.
  destruct (h !! l) as [t|]; [|done]. exists t. split; [done|].
  destruct pc as [|r0 [|r1 [|r2 [|r3 [|r4 [|r5 pc]]]]]];
    [exfalso..|simpl; lia];
    simpl in Hd; rewrite ?lookup_insert_eq in Hd; simpl in Hd;
    rewrite ?lookup_insert_eq in Hd; simpl in Hd; done.
Qed.

Lemma length_matvec m v : length (matvec m v) = length m.
Proof. unfold matvec. by rewrite length_fmap. Qed.

Lemma length_camera_space b4 i4 ib tr ir K p :
  length (camera_space b4 i4 ib tr ir K p) = length K.
Proof.
  unfold camera_space, apply_intrins. destruct i4; apply length_matvec.
Qed.

Lemma project_is_Some ogfH ogfW pr pt cam :
  (3 ≤ length cam)%nat → (2 ≤ length pr)%nat → (2 ≤ length pt)%nat →
  is_Some (project ogfH ogfW pr pt cam).
Proof.
  intros Hcam Hpr Hpt.
  destruct cam as [|cx [|cy [|d cam]]]; simpl in Hcam; try lia.
  destruct pr as [|r1 [|r2 pr]]; simpl in Hpr; try lia.
  destruct pt as [|t1 [|t2 pt]]; simpl in Hpt; try lia.
  by eexists.
Qed.

Lemma per_camera_lookup {A} B nc (P : A → Prop) (x : list (list A)) b n :
  per_camera B nc P x → (b < B)%nat → (n < nc)%nat →
  ∃ y, x !! b ≫= (.!! n) = Some y ∧ P y.
Proof.
  intros [Hlen Hall] Hb Hn.
  destruct (lookup_lt_is_Some_2 x b) as [xb Hxb]; [lia|].
  destruct (Forall_lookup_1 _ _ _ _ Hall Hxb) as [Hlen' HP].
  destruct (lookup_lt_is_Some_2 xb n) as [y Hy]; [lia|].
  exists y. rewrite Hxb. simpl. split; [done|].
  by eapply Forall_lookup_1.
Qed.

Lemma mapM_inverse_bda (ms : list matrix) :
  Forall invertible ms →
  ∃ inv, mapM inverse ms = Some inv ∧ length inv = length ms.
Proof.
  intros Hall. destruct (mapM_is_Some_2 inverse ms) as [inv Hinv].
  { eapply Forall_impl; [done|]. by intros m Hm. }
  exists inv. split; [done|]. symmetry. by eapply length_mapM.
Qed.

Lemma mapM_inverse_rots B nc (rs : list (list matrix)) :
  per_camera B nc invertible rs →
  ∃ inv, mapM (mapM inverse) rs = Some inv ∧
         per_camera B nc (λ _, True) inv.
Proof.
  intros [Hlen Hall].
  destruct (mapM_is_Some_2 (mapM inverse) rs) as [inv Hinv].
  { eapply Forall_impl; [done|]. intros rb [_ Hrb]. simpl.
    apply mapM_is_Some_2. eapply Forall_impl; [done|]. by intros m Hm. }
  exists inv. split; [done|]. split.
  - rewrite <- Hlen. symmetry. by eapply length_mapM.
  - apply mapM_Some_1 in Hinv. apply Forall_lookup. intros b ib Hib.
    destruct (Forall2_lookup_r _ _ _ _ _ Hinv Hib) as (rb & Hrb & Hm).
    destruct (Forall_lookup_1 _ _ _ _ Hall Hrb) as [Hlen' _].
    split; [|by apply Forall_true].
    rewrite <- Hlen'. symmetry. by eapply length_mapM.
Qed.

Lemma has_block_2x2_length m : has_block_2x2 m → (2 ≤ length m)%nat.
Proof. by intros [? _]. Qed.

(** With consistent shapes the tabulation succeeds and has an entry for
    every camera, batch item, sample point and height level. *)
Lemma tabulate_samples_total ogfH ogfW cp inv_bda inv_rots
    (t : tensor4 Q) :
  rectangular t →
  Forall (Forall (Forall (λ p : vec, length p = 3%nat))) t →
  length (bda cp) = length t → length inv_bda = length t →
  Forall (square (if Nat.eqb (last_dim (bda cp)) 4 then 4 else 3))%nat
    (bda cp) →
  per_camera (length t) (size_1 (trans cp)) (square 3) (rots cp) →
  per_camera (length t) (size_1 (trans cp)) (λ _, True) inv_rots →
  per_camera (length t) (size_1 (trans cp)) (λ v, length v = 3%nat)
    (trans cp) →
  per_camera (length t) (size_1 (trans cp))
    (square (if Nat.eqb (dim_3 (intrins cp)) 4 then 4 else 3))%nat
    (intrins cp) →
  per_camera (length t) (size_1 (trans cp)) has_block_2x2 (post_rots cp) →
  per_camera (length t) (size_1 (trans cp)) (λ v, 2 ≤ length v)%nat
    (post_trans cp) →
  ∃ s, tabulate_samples (project ogfH ogfW) cp inv_bda inv_rots t = Some s ∧
       ∀ n b q d,
         (n < size_1 (trans cp))%nat → (b < length t)%nat →
         (q < size_2 t)%nat → (d < size_1 t)%nat →
         is_Some (entry s n b q d).
Proof.
  intros Hrect Hpts Hbda Hib Hsq Hrots Hir Htr HK Hpr Hpt.
  unfold tabulate_samples.
  rewrite !option_guard_True by done.
  match goal with |- ∃ s, mapM ?f _ = Some s ∧ _ => set (F := f) end.
  assert (∀ n b q d,
    (n < size_1 (trans cp))%nat → (b < length t)%nat →
    (q < size_2 t)%nat → (d < size_1 t)%nat →
    is_Some (
      p ← entry3 t b d q;
      ib ← inv_bda !! b;
      tr ← trans cp !! b ≫= (.!! n);
      ir ← inv_rots !! b ≫= (.!! n);
      K ← intrins cp !! b ≫= (.!! n);
      pr ← post_rots cp !! b ≫= (.!! n);
      pt ← post_trans cp !! b ≫= (.!! n);
      project ogfH ogfW pr pt
        (camera_space (Nat.eqb (last_dim (bda cp)) 4)
           (Nat.eqb (dim_3 (intrins cp)) 4) ib tr ir K p))) as Hentry.
  { intros n b q d Hn Hb Hq Hd.
    destruct (rectangular_entry3 t b d q) as [p ->]; [done..|]. simpl.
    destruct (lookup_lt_is_Some_2 inv_bda b) as [ib ->]; [lia|]. simpl.
    destruct (per_camera_lookup _ _ _ _ b n Htr) as (tr & -> & _);
      [done..|]. simpl.
    destruct (per_camera_lookup _ _ _ _ b n Hir) as (ir & -> & _);
      [done..|]. simpl.
    destruct (per_camera_lookup _ _ _ _ b n HK) as (K & -> & [HlenK _]);
      [done..|]. simpl.
    destruct (per_camera_lookup _ _ _ _ b n Hpr) as (pr & -> & Hlenpr);
      [done..|]. simpl.
    destruct (per_camera_lookup _ _ _ _ b n Hpt) as (pt & -> & Hlenpt);
      [done..|]. simpl.
    apply project_is_Some; [|by apply has_block_2x2_length|done].
    rewrite length_camera_space, HlenK.
    destruct (dim_3 (intrins cp) =? 4)%nat; lia. }
  destruct (mapM_seq_is_Some F (size_1 (trans cp))) as [s Hs].
  { intros n Hn. unfold F. apply mapM_seq_is_Some. intros b Hb.
    apply mapM_seq_is_Some. intros q Hq.
    apply mapM_seq_is_Some. intros d Hd. by apply Hentry. }
  exists s. split; [done|].
  intros n b q d Hn Hb Hq Hd. unfold entry.
  destruct (mapM_seq_lookup_lt _ _ _ n Hs Hn) as (sn & -> & Hsn). simpl.
  unfold F in Hsn.
  destruct (mapM_seq_lookup_lt _ _ _ b Hsn Hb) as (sb & -> & Hsb). simpl.
  destruct (mapM_seq_lookup_lt _ _ _ q Hsb Hq) as (sq & -> & Hsq'). simpl.
  destruct (mapM_seq_lookup_lt _ _ _ d Hsq' Hd) as (sd & -> & _).
  by eexists.
Qed.

Lemma rectangular_rescale_channel c s o t :
  rectangular t → rectangular (rescale_channel c s o t).
Proof.
  unfold rectangular. rewrite size_1_rescale_channel, size_2_rescale_channel.
  intros Hr. unfold rescale_channel. apply Forall_fmap.
  eapply Forall_impl; [done|]. intros tb [Hlen Hrows]. simpl.
  rewrite length_fmap. split; [done|]. apply Forall_fmap.
  eapply Forall_impl; [done|]. intros td Htd. simpl.
  by rewrite length_fmap.
Qed.

Lemma points_rescale_channel c s o (t : tensor4 Q) n :
  Forall (Forall (Forall (λ p : vec, length p = n))) t →
  Forall (Forall (Forall (λ p : vec, length p = n)))
    (rescale_channel c s o t).
Proof.
  intros Ht. unfold rescale_channel. apply Forall_fmap.
  eapply Forall_impl; [done|]. intros tb Hb. simpl. apply Forall_fmap.
  eapply Forall_impl; [done|]. intros td Hd. simpl. apply Forall_fmap.
  eapply Forall_impl; [done|]. intros p Hp. simpl.
  by rewrite length_alter.
Qed.

Lemma per_camera_impl {A} B nc (P R : A → Prop) x :
  (∀ a, P a → R a) → per_camera B nc P x → per_camera B nc R x.
Proof.
  intros HPR [Hlen Hall]. split; [done|].
  eapply Forall_impl; [done|]. intros xb [? Hxb]. split; [done|].
  by eapply Forall_impl.
Qed.

(** The whole call on inputs of consistent shape: it returns, and every
    entry of the returned tensors comes from one [project]. *)
Lemma point_sampling_samples_total ogfH ogfW h l pc cp t :
  h !! l = Some t → well_shaped t pc cp →
  ∃ s h',
    point_sampling_samples (project ogfH ogfW) h l pc cp = Some (s, h') ∧
    ∀ n b q d,
      (n < num_cam cp)%nat → (b < length t)%nat →
      (q < size_2 t)%nat → (d < size_1 t)%nat →
      is_Some (entry s n b q d).
Proof.
  intros Ht (Hrect & Hpts & Hpc & Hbda & Hsq & Hinv & Hrots & Hrinv & Htr
             & HK & Hpr & Hpt).
  unfold point_sampling_samples.
  destruct (denormalize_spec pc l h t Ht Hpc)
    as (r0 & r1 & r2 & r3 & r4 & r5 & _ & _ & _ & _ & _ & _ & ->).
  simpl. rewrite lookup_insert_eq. simpl.
  set (t3 := rescale_channel 2 _ _ _).
  assert (length t3 = length t) as Hlen
    by (unfold t3; by rewrite !length_rescale_channel).
  assert (size_1 t3 = size_1 t) as Hs1
    by (unfold t3; by rewrite !size_1_rescale_channel).
  assert (size_2 t3 = size_2 t) as Hs2
    by (unfold t3; by rewrite !size_2_rescale_channel).
  assert (rectangular t3) as Hrect3
    by (unfold t3; by do 3 apply rectangular_rescale_channel).
  assert (Forall (Forall (Forall (λ p : vec, length p = 3%nat))) t3)
    as Hpts3 by (unfold t3; by do 3 apply points_rescale_channel).
  destruct (mapM_inverse_bda _ Hinv) as (ib & -> & Hib). simpl.
  destruct (mapM_inverse_rots _ _ _ Hrinv) as (ir & -> & Hir). simpl.
  rewrite <- Hlen in Hrots, Hir, Htr, HK, Hpr, Hpt.
  destruct (tabulate_samples_total ogfH ogfW cp ib ir t3)
    as (s & -> & Hs); [done|done|lia|lia|done..|].
  simpl. eexists _, _. split; [done|].
  intros n b q d Hn Hb Hq Hd. apply Hs; unfold num_cam in *; lia.
Qed.

(** ** The heap after the call *)

Lemma point_sampling_samples_heap proj h l pc cp s h' t :
  point_sampling_samples proj h l pc cp = Some (s, h') →
  h !! l = Some t →
  ∃ r0 r1 r2 r3 r4 r5,
    pc !! 0%nat = Some r0 ∧ pc !! 1%nat = Some r1 ∧ pc !! 2%nat = Some r2 ∧
    pc !! 3%nat = Some r3 ∧ pc !! 4%nat = Some r4 ∧ pc !! 5%nat = Some r5 ∧
    h' = <[l := rescale_channel 2 (r5 - r2) r2
                  (rescale_channel 1 (r4 - r1) r1
                     (rescale_channel 0 (r3 - r0) r0 t))]> h.
Proof.
  unfold point_sampling_samples. intros Hs Ht.
  destruct (denormalize pc l h) as [h1|] eqn:Hd; [|done].
  destruct (denormalize_inv _ _ _ _ Hd) as (t' & Ht' & Hlen).
  assert (t' = t) as -> by congruence.
  destruct (denormalize_spec pc l h t Ht Hlen)
    as (r0 & r1 & r2 & r3 & r4 & r5 & ? & ? & ? & ? & ? & ? & Hd').
  rewrite Hd' in Hd. injection Hd as <-.
  exists r0, r1, r2, r3, r4, r5. repeat (split; [done|]).
  simpl in Hs. rewrite lookup_insert_eq in Hs. simpl in Hs.
  destruct (mapM inverse (bda cp)); [|done]. simpl in Hs.
  destruct (mapM (mapM inverse) (rots cp)); [|done]. simpl in Hs.
  destruct (tabulate_samples _ _ _ _ _); [|done]. simpl in Hs.
  by injection Hs as _ <-.
Qed.

Lemma point_sampling_heap self h l pc cp pts mask h' t :
  point_sampling self h l pc cp = Some (pts, mask, h') →
  h !! l = Some t →
  ∃ r0 r1 r2 r3 r4 r5,
    pc !! 0%nat = Some r0 ∧ pc !! 1%nat = Some r1 ∧ pc !! 2%nat = Some r2 ∧
    pc !! 3%nat = Some r3 ∧ pc !! 4%nat = Some r4 ∧ pc !! 5%nat = Some r5 ∧
    h' = <[l := rescale_channel 2 (r5 - r2) r2
                  (rescale_channel 1 (r4 - r1) r1
                     (rescale_channel 0 (r3 - r0) r0 t))]> h.
Proof.
  unfold point_sampling. intros Hps Ht.
  destruct (final_dim self) as [ogfH ogfW].
  destruct (point_sampling_samples _ h l pc cp) as [[s h1]|] eqn:Hs;
    [|done].
  simpl in Hps. injection Hps as _ _ <-.
  by eapply point_sampling_samples_heap.
Qed.

(** A call that returns found a tensor at [reference_points]. *)
Lemma point_sampling_lookup self h l pc cp pts mask h' :
  point_sampling self h l pc cp = Some (pts, mask, h') →
  ∃ t, h !! l = Some t.
Proof.
  unfold point_sampling, point_sampling_samples. intros Hps.
  destruct (final_dim self) as [ogfH ogfW].
  destruct (denormalize pc l h) as [h1|] eqn:Hd; [|done].
  apply denormalize_inv in Hd as (t & Ht & _). by exists t.
Qed.

(** ** One entry of the DFA3D projection, next to the base one

    Both variants compute the same two pixel channels; the DFA3D variant
    keeps the normalized depth as third channel, and its mask tests the
    value [points_d] reads after line 319, which is that normalized
    depth. *)
Lemma project_DFA3D_entry ogfH ogfW d0 d1 db
    r11 r12 ra r21 r22 rb rc t1 t2 tc cx cy d rest :
  let pr := (r11 :: r12 :: ra) :: (r21 :: r22 :: rb) :: rc in
  let pt := t1 :: t2 :: tc in
  let cam := cx :: cy :: d :: rest in
  let depth_norm := (d - d0) / (d1 - d0) in
  ∃ x y,
    project ogfH ogfW pr pt cam
    = Some {| points_d := d; raw_depth := d;
              reference_points_cam := [x; y];
              volume_mask := visible d x y |} ∧
    project_DFA3D ogfH ogfW (d0 :: d1 :: db) pr pt cam
    = Some {| points_d := depth_norm; raw_depth := d;
              reference_points_cam := [x; y; depth_norm];
              volume_mask := visible depth_norm x y |}.
Proof. simpl. eexists _, _. split; reflexivity. Qed.

(** ** The 2-D reference grid, entry by entry *)

Lemma length_join_replicate {A} n (l : list A) :
  length (mjoin (replicate n l)) = (n * length l)%nat.
Proof.
  rewrite length_join, (sum_list_fmap_same (length l)).
  - by rewrite length_replicate.
  - by apply Forall_replicate.
Qed.

Lemma length_join_rows {A} n (l : list A) :
  length (mjoin ((λ y, replicate n y) <$> l)) = (length l * n)%nat.
Proof.
  rewrite length_join, (sum_list_fmap_same n).
  - by rewrite length_fmap.
  - apply Forall_fmap, Forall_true. intros y. simpl. apply length_replicate.
Qed.

Lemma lookup_join_replicate {A} n (l : list A) row col v :
  (row < n)%nat → l !! col = Some v →
  mjoin (replicate n l) !! (row * length l + col)%nat = Some v.
Proof.
  intros Hrow Hcol. apply join_lookup_Some_same_length'.
  - by apply Forall_replicate.
  - by eapply lookup_lt_Some.
  - exists l. split; [by apply lookup_replicate_2|done].
Qed.

Lemma lookup_join_rows {A} n (l : list A) row col v :
  (col < n)%nat → l !! row = Some v →
  mjoin ((λ y, replicate n y) <$> l) !! (row * n + col)%nat = Some v.
Proof.
  intros Hcol Hrow. apply join_lookup_Some_same_length'; [|done|].
  - apply Forall_fmap, Forall_true. intros y. simpl. apply length_replicate.
  - exists (replicate n v). rewrite list_lookup_fmap, Hrow. simpl.
    split; [done|by apply lookup_replicate_2].
Qed.

(** [get_reference_points(.., dim='2d')] returns a tensor with [bs] batch
    items of [H * W] points each; the point of cell [(row, col)] sits at
    position [row * W + col]. *)
Lemma get_reference_points_2d H W Z npp bs :
  ∃ g, get_reference_points H W Z npp "2d" bs = Tensor g ∧
    length g = bs ∧
    (∀ b gb, g !! b = Some gb → length gb = (H * W)%nat) ∧
    ∀ b row col vx vy,
      (b < bs)%nat → (row < H)%nat → (col < W)%nat →
      linspace (1#2) (Qofnat W - (1#2)) W !! col = Some vx →
      linspace (1#2) (Qofnat H - (1#2)) H !! row = Some vy →
      entry3 g b (row * W + col)%nat 0%nat
      = Some [vx / Qofnat W; vy / Qofnat H].
Proof.
  unfold get_reference_points, meshgrid_ij.
  change (String.eqb "2d" "3d") with false.
  change (String.eqb "2d" "2d") with true. cbv iota.
  rewrite !length_linspace.
  eexists. split; [reflexivity|]. split; [apply length_replicate|]. split.
  - intros b gb Hgb. apply lookup_replicate in Hgb as [-> _].
    rewrite length_fmap, length_zip_with, !length_fmap.
    rewrite length_join_replicate, length_join_rows, !length_linspace. lia.
  - intros b row col vx vy Hb Hrow Hcol Hvx Hvy.
    unfold entry3. rewrite lookup_replicate_2 by done. simpl.
    rewrite list_lookup_fmap, lookup_zip_with, !list_lookup_fmap.
    pose proof (lookup_join_replicate H _ row col vx Hrow Hvx) as Hx.
    rewrite length_linspace in Hx. rewrite Hx. simpl.
    by rewrite (lookup_join_rows W _ row col vy Hcol Hvy).
Qed.

(** ** The layer loop *)

Lemma run_layers_replayed {T} ri h (call : T → layer_call T) ls q o acc :
  ∃ outs,
    replayed h call ls q outs ∧
    run_layers ri h call ls q o acc
    = (default o (last outs), if ri then acc ++ outs else acc).
Proof.
  revert q o acc. induction ls as [|l ls IH]; intros q o acc.
  - exists []. split; [split; [done|]|].
    + intros i l Hl. by rewrite lookup_nil in Hl.
    + simpl. destruct ri; [by rewrite app_nil_r|done].
  - simpl.
    destruct (IH (l h (call q)) (l h (call q))
                (if ri then acc ++ [l h (call q)] else acc))
      as (outs & [Hlen Hrep] & ->).
    exists (l h (call q) :: outs). split; [split|].
    + simpl. by rewrite Hlen.
    + intros [|i] l' Hl'.
      * simpl in Hl'. injection Hl' as <-. by exists q.
      * simpl in Hl'. destruct (Hrep i l' Hl') as (q_in & Hq & Hout).
        exists q_in. split; [|done].
        destruct i as [|j]; [by subst|done].
    + f_equal.
      * rewrite last_cons. by destruct (last outs).
      * destruct ri; [|done]. by rewrite <- app_assoc.
Qed.

Lemma lookup_hybird (g : tensor4 Q) b k :
  (k < 2)%nat → hybird g !! (b * 2 + k)%nat = g !! b.
Proof.
  intros Hk. unfold hybird.
  destruct (g !! b) as [gb|] eqn:Hgb.
  - apply join_lookup_Some_same_length'; [|done|].
    + apply Forall_fmap, Forall_true. by intros r.
    + exists [gb; gb]. rewrite list_lookup_fmap, Hgb. split; [done|].
      by destruct k as [|[|k]]; [..|lia].
  - apply lookup_ge_None. rewrite length_join, (sum_list_fmap_same 2).
    + rewrite length_fmap. apply lookup_ge_None in Hgb. lia.
    + apply Forall_fmap, Forall_true. by intros r.
Qed.

(** ** [forward] as the replay of its layers *)

(** Once the projection has returned, [forward] is the replay of the
    layers on the heap the projection left, each called with the stacked
    512x512 grid as [ref_2d], with [ref_3d] itself and with the projected
    points and mask. *)
Lemma forward_replayed {T} (size1 : T → nat) (permute_102 : T → T)
    (self : VoxFormerEncoder T) h bev_query key value ref_3d bev_h bev_w
    bev_pos ss lsi cp prev_bev pts mask h' g :
  forward_ref_2d size1 bev_query = Tensor g →
  point_sampling (enc_projector self) h ref_3d (pc_range self) cp
  = Some (pts, mask, h') →
  ∃ outs,
    replayed h'
      (forward_call key value (permute_102 <$> bev_pos) (hybird g) ref_3d
         bev_h bev_w ss lsi pts mask prev_bev)
      (layers self) (permute_102 bev_query) outs ∧
    forward size1 permute_102 self h bev_query key value ref_3d
      bev_h bev_w bev_pos ss lsi cp prev_bev
    = forward_result self bev_query outs h'.
Proof.
  intros Hg Hps.
  destruct (run_layers_replayed (return_intermediate self) h'
    (forward_call key value (permute_102 <$> bev_pos) (hybird g) ref_3d
       bev_h bev_w ss lsi pts mask prev_bev)
    (layers self) (permute_102 bev_query) bev_query [])
    as (outs & Hrep & Hrun).
  exists outs. split; [done|].
  unfold forward, forward_result. rewrite Hg. cbn [mbind option_bind].
  rewrite Hps. cbn [mbind option_bind]. rewrite Hrun. simpl.
  by destruct (return_intermediate self).
Qed.

(** The input of layer [i] in a replay is determined by the outputs. *)
Lemma replayed_output {T} h (call : T → layer_call T) ls q0 outs i l q_in :
  replayed h call ls q0 outs →
  ls !! i = Some l →
  match i with
  | O => q_in = q0
  | S j => outs !! j = Some q_in
  end →
  outs !! i = Some (l h (call q_in)).
Proof.
  intros [_ Hrep] Hl Hq.
  destruct (Hrep i l Hl) as (q' & Hq' & Hout).
  destruct i as [|j]; [by subst|].
  assert (q' = q_in) as -> by congruence. done.
Qed.

(** ** The operation loop of a layer *)

Lemma known_tag_false layer :
  layer ≠ "self_attn" → layer ≠ "norm" → layer ≠ "cross_attn" →
  layer ≠ "ffn" → known_tag layer = false.
Proof.
  intros H1 H2 H3 H4. unfold known_tag.
  apply String.eqb_neq in H1, H2, H3, H4. by rewrite H1, H2, H3, H4.
Qed.

Lemma step_unknown {T} (self : VoxFormerLayer T) a masks st layer :
  known_tag layer = false → step self a masks st layer = Some st.
Proof.
  unfold known_tag, step. intros Hk.
  repeat (apply orb_false_elim in Hk as [Hk ?]).
  by repeat case_match.
Qed.

Lemma run_operations_app {T} (self : VoxFormerLayer T) a masks pre post st :
  run_operations self a masks (pre ++ post) st
  = run_operations self a masks pre st
      ≫= run_operations self a masks post.
Proof.
  revert st. induction pre as [|l pre IH]; intros st; [done|].
  simpl. destruct (step self a masks st l) as [st'|]; [|done].
  simpl. apply IH.
Qed.

Lemma count_tag_cons tag l order :
  count_tag tag (l :: order)
  = ((if String.eqb l tag then 1 else 0) + count_tag tag order)%nat.
Proof.
  unfold count_tag. rewrite filter_cons.
  destruct (String.eqb_spec l tag); case_decide; done.
Qed.

(** As long as the sub-module lists and the masks reach as far as the
    remaining tags need, the loop runs through. *)
Lemma run_operations_total {T} (self : VoxFormerLayer T) a
    (masks : list (option T)) order st :
  (attn_index st + count_tag "self_attn" order
   + count_tag "cross_attn" order ≤ length (attentions self))%nat →
  (attn_index st + count_tag "self_attn" order
   + count_tag "cross_attn" order ≤ length masks)%nat →
  (norm_index st + count_tag "norm" order ≤ length (norms self))%nat →
  (ffn_index st + count_tag "ffn" order ≤ length (ffns self))%nat →
  ((0 < count_tag "self_attn" order)%nat →
   is_Some (la_bev_h a) ∧ is_Some (la_bev_w a)) →
  is_Some (run_operations self a masks order st).
Proof.
  revert st. induction order as [|l order IH]; intros st Ha Hm Hn Hf Hb.
  { by eexists. }
  repeat match goal with
         | H : context [count_tag _ (_ :: _)] |- _ =>
             rewrite count_tag_cons in H
         end.
  simpl. unfold step.
  destruct (String.eqb_spec l "self_attn") as [->|_].
  { simpl in *.
    destruct (lookup_lt_is_Some_2 (attentions self) (attn_index st))
      as [att ->]; [lia|].
    destruct (lookup_lt_is_Some_2 masks (attn_index st)) as [am ->]; [lia|].
    destruct Hb as [[bh Hbh] [bw Hbw]]; [lia|]. rewrite Hbh, Hbw. simpl.
    apply IH; simpl; try lia. intros _. rewrite Hbh, Hbw.
    split; by eexists. }
  destruct (String.eqb_spec l "norm") as [->|_].
  { simpl in *.
    destruct (lookup_lt_is_Some_2 (norms self) (norm_index st))
      as [nm ->]; [lia|]. simpl.
    apply IH; simpl; try lia. done. }
  destruct (String.eqb_spec l "cross_attn") as [->|_].
  { simpl in *.
    destruct (lookup_lt_is_Some_2 (attentions self) (attn_index st))
      as [att ->]; [lia|].
    destruct (lookup_lt_is_Some_2 masks (attn_index st)) as [am ->]; [lia|].
    simpl. apply IH; simpl; try lia. done. }
  destruct (String.eqb_spec l "ffn") as [->|_].
  { simpl in *.
    destruct (lookup_lt_is_Some_2 (ffns self) (ffn_index st))
      as [ff ->]; [lia|]. simpl.
    apply IH; simpl; try lia. done. }
  simpl in *. apply IH; simpl; try lia. done.
Qed.

(** The operation order enters [forward] only as the list the loop runs
    over. *)
Lemma run_operations_order {T} (self : VoxFormerLayer T) o a ms order st :
  run_operations (with_operation_order o self) a ms order st
  = run_operations self a ms order st.
Proof.
  revert st. induction order as [|l order IH]; intros st; [done|].
  simpl. change (step (with_operation_order o self) a ms st l)
    with (step self a ms st l).
  destruct (step self a ms st l); [|done]. simpl. apply IH.
Qed.

Lemma layer_forward_order {T} (self : VoxFormerLayer T) o query_in a :
  layer_forward (with_operation_order o self) query_in a
  = '(ms, w) ← expand_attn_masks self (la_attn_masks a);
    st ← run_operations self a ms o
           {| query := query_in; identity := query_in;
              attn_index := 0; norm_index := 0; ffn_index := 0 |};
    Some (query st, w).
Proof.
  unfold layer_forward.
  change (expand_attn_masks (with_operation_order o self) (la_attn_masks a))
    with (expand_attn_masks self (la_attn_masks a)).
  destruct (expand_attn_masks self (la_attn_masks a)) as [[ms w]|]; [|done].
  simpl. by rewrite run_operations_order.
Qed.

(** A ['self_attn'] step of a layer the encoder called with [c]: the
    attention module is handed the [ref_2d] of the call as reference
    points, and [bev_h], [bev_w] only as its spatial shape. *)
Lemma step_self_attn_of_call {T} (kw : layer_kwargs T)
    (vl : VoxFormerLayer T) (c : layer_call T) masks st st' :
  step vl (layer_args_of_call kw c) masks st "self_attn" = Some st' →
  ∃ attention attn_mask bh bw,
    attentions vl !! attn_index st = Some attention ∧
    masks !! attn_index st = Some attn_mask ∧
    lc_bev_h c = Some bh ∧ lc_bev_w c = Some bw ∧
    query st' = attention (self_attn_call_of kw vl c st attn_mask bh bw).
Proof.
  unfold step. simpl. intros Hs.
  destruct (attentions vl !! attn_index st) as [att|]; [|done].
  destruct (masks !! attn_index st) as [am|]; [|done].
  destruct (lc_bev_h c) as [bh|]; [|done].
  destruct (lc_bev_w c) as [bw|]; [|done].
  simpl in Hs. injection Hs as <-. by eexists _, _, _, _.
Qed.

(** The fixture layer is what its [VoxFormerLayer] computes. *)
Lemma counting_encoder_layer_is_VoxFormerLayer :
  is_VoxFormerLayer no_kwargs (counting_layer usual_order)
    counting_encoder_layer.
Proof.
  intros h c out w. unfold layer_forward. simpl. unfold step. simpl.
  destruct (lc_bev_h c) as [bh|]; [|done].
  destruct (lc_bev_w c) as [bw|]; [|done].
  simpl. by intros [= <- _].
Qed.

(** ** The shape of what the projection returns *)

Lemma mapM_seq_length {A} (f : nat → option A) n l :
  mapM f (seq 0 n) = Some l → length l = n.
Proof.
  intros Hm. apply length_mapM in Hm. by rewrite length_seq in Hm.
Qed.

Lemma tabulate_samples_shape proj cp inv_bda inv_rots t s :
  tabulate_samples proj cp inv_bda inv_rots t = Some s →
  has_shape4 (size_1 (trans cp)) (length t) (size_2 t) (size_1 t) s.
Proof.
  unfold tabulate_samples. intros Ht.
  repeat case_guard; simpl in Ht; try done.
  split; [by eapply mapM_seq_length|].
  apply Forall_lookup. intros n sn Hn.
  destruct (mapM_seq_lookup _ _ _ _ _ Ht Hn) as [Hn' _].
  split; [by eapply mapM_seq_length|].
  apply Forall_lookup. intros b sb Hb.
  destruct (mapM_seq_lookup _ _ _ _ _ Hn' Hb) as [Hb' _].
  split; [by eapply mapM_seq_length|].
  apply Forall_lookup. intros q sq Hq.
  destruct (mapM_seq_lookup _ _ _ _ _ Hb' Hq) as [Hq' _].
  by eapply mapM_seq_length.
Qed.

Lemma has_shape4_map4 {A B} (f : A → B) n1 n2 n3 n4 (t : tensor4 A) :
  has_shape4 n1 n2 n3 n4 t → has_shape4 n1 n2 n3 n4 (map4 f t).
Proof.
  unfold has_shape4, map4. intros [L1 H1].
  rewrite length_fmap. split; [done|].
  apply Forall_fmap. eapply Forall_impl; [done|].
  intros a [L2 H2]. simpl. rewrite length_fmap. split; [done|].
  apply Forall_fmap. eapply Forall_impl; [done|].
  intros b [L3 H3]. simpl. rewrite length_fmap. split; [done|].
  apply Forall_fmap. eapply Forall_impl; [done|].
  intros c L4. simpl. by rewrite length_fmap.
Qed.

Lemma point_sampling_samples_shape proj h l pc cp s h' t :
  point_sampling_samples proj h l pc cp = Some (s, h') →
  h !! l = Some t →
  has_shape4 (num_cam cp) (length t) (size_2 t) (size_1 t) s.
Proof.
  unfold point_sampling_samples. intros Hs Ht.
  destruct (denormalize pc l h) as [h1|] eqn:Hd; [|done].
  destruct (denormalize_inv _ _ _ _ Hd) as (t' & _ & Hlen).
  destruct (denormalize_spec pc l h t Ht Hlen)
    as (r0 & r1 & r2 & r3 & r4 & r5 & _ & _ & _ & _ & _ & _ & Hd').
  rewrite Hd' in Hd. injection Hd as <-.
  simpl in Hs. rewrite lookup_insert_eq in Hs. simpl in Hs.
  destruct (mapM inverse (bda cp)) as [ib|]; [|done]. simpl in Hs.
  destruct (mapM (mapM inverse) (rots cp)) as [ir|]; [|done]. simpl in Hs.
  destruct (tabulate_samples _ _ _ _ _) as [s'|] eqn:Htab; [|done].
  simpl in Hs. injection Hs as <- _.
  apply tabulate_samples_shape in Htab.
  by rewrite !length_rescale_channel, !size_1_rescale_channel,
    !size_2_rescale_channel in Htab.
Qed.

Lemma has_shape4_entry {A} n1 n2 n3 n4 (t : tensor4 A) i j k l :
  has_shape4 n1 n2 n3 n4 t →
  (i < n1)%nat → (j < n2)%nat → (k < n3)%nat → (l < n4)%nat →
  is_Some (entry t i j k l).
Proof.
  unfold has_shape4, entry. intros [L1 H1] Hi Hj Hk Hl.
  destruct (lookup_lt_is_Some_2 t i) as [a Ha]; [lia|]. rewrite Ha. simpl.
  destruct (Forall_lookup_1 _ _ _ _ H1 Ha) as [L2 H2].
  destruct (lookup_lt_is_Some_2 a j) as [b Hb]; [lia|]. rewrite Hb. simpl.
  destruct (Forall_lookup_1 _ _ _ _ H2 Hb) as [L3 H3].
  destruct (lookup_lt_is_Some_2 b k) as [c Hc]; [lia|]. rewrite Hc. simpl.
  pose proof (Forall_lookup_1 _ _ _ _ H3 Hc) as L4. simpl in L4.
  apply lookup_lt_is_Some_2. lia.
Qed.

Lemma has_shape4_entry_lt {A} n1 n2 n3 n4 (t : tensor4 A) i j k l x :
  has_shape4 n1 n2 n3 n4 t → entry t i j k l = Some x →
  (i < n1)%nat ∧ (j < n2)%nat ∧ (k < n3)%nat ∧ (l < n4)%nat.
Proof.
  unfold has_shape4, entry. intros [L1 H1] He.
  destruct (t !! i) as [a|] eqn:Ha; [|done]. simpl in He.
  destruct (a !! j) as [b|] eqn:Hb; [|done]. simpl in He.
  destruct (b !! k) as [c|] eqn:Hc; [|done]. simpl in He.
  destruct (Forall_lookup_1 _ _ _ _ H1 Ha) as [L2 H2].
  destruct (Forall_lookup_1 _ _ _ _ H2 Hb) as [L3 H3].
  pose proof (Forall_lookup_1 _ _ _ _ H3 Hc) as L4. simpl in L4.
  apply lookup_lt_Some in Ha, Hb, Hc, He. lia.
Qed.

(** ** One entry of the result, from the arguments *)

Lemma per_camera_lookup_P {A} B nc (P : A → Prop) (x : list (list A))
    b n y :
  per_camera B nc P x → x !! b ≫= (.!! n) = Some y → P y.
Proof.
  intros [_ Hall] Hy.
  destruct (x !! b) as [xb|] eqn:Hxb; [|done]. simpl in Hy.
  destruct (Forall_lookup_1 _ _ _ _ Hall Hxb) as [_ HP].
  by eapply Forall_lookup_1.
Qed.

(** What the guards of [tabulate_samples] let through. *)
Lemma tabulate_samples_guards proj cp inv_bda inv_rots t s :
  tabulate_samples proj cp inv_bda inv_rots t = Some s →
  Forall (Forall (Forall (λ p : vec, length p = 3%nat))) t ∧
  length (bda cp) = length t ∧
  Forall (square (if Nat.eqb (last_dim (bda cp)) 4 then 4 else 3))%nat
    (bda cp) ∧
  per_camera (length t) (size_1 (trans cp)) (λ v : vec, length v = 3%nat)
    (trans cp) ∧
  per_camera (length t) (size_1 (trans cp)) (square 3) (rots cp) ∧
  per_camera (length t) (size_1 (trans cp))
    (square (if Nat.eqb (dim_3 (intrins cp)) 4 then 4 else 3))%nat
    (intrins cp) ∧
  per_camera (length t) (size_1 (trans cp)) has_block_2x2 (post_rots cp) ∧
  per_camera (length t) (size_1 (trans cp)) (λ v : vec, (2 ≤ length v)%nat)
    (post_trans cp).
Proof.
  unfold tabulate_samples. intros Ht.
  repeat case_guard; simpl in Ht; try done.
Qed.

Lemma mapM_lookup_r {A B} (f : A → option B) l k i y :
  mapM f l = Some k → k !! i = Some y →
  ∃ x, l !! i = Some x ∧ f x = Some y.
Proof.
  intros Hm Hy. apply mapM_Some_1 in Hm.
  destruct (Forall2_lookup_r _ _ _ _ _ Hm Hy) as (x & Hx & Hf). eauto.
Qed.

(** Every entry of what the call computes is the projection of the
    de-normalized point left in [reference_points], through the inverse
    [bda] of its batch item and the parameters of its camera. *)
Lemma point_sampling_samples_chain proj h l pc cp s h' n b q d smp :
  point_sampling_samples proj h l pc cp = Some (s, h') →
  entry s n b q d = Some smp →
  ∃ t' p mb ib mr ir tr K pr pt,
    h' !! l = Some t' ∧ entry3 t' b d q = Some p ∧ length p = 3%nat ∧
    bda cp !! b = Some mb ∧ inverse mb = Some ib ∧
    rots cp !! b ≫= (.!! n) = Some mr ∧ inverse mr = Some ir ∧
    trans cp !! b ≫= (.!! n) = Some tr ∧
    intrins cp !! b ≫= (.!! n) = Some K ∧
    post_rots cp !! b ≫= (.!! n) = Some pr ∧ has_block_2x2 pr ∧
    post_trans cp !! b ≫= (.!! n) = Some pt ∧ (2 ≤ length pt)%nat ∧
    proj pr pt
      (camera_space (Nat.eqb (last_dim (bda cp)) 4)
         (Nat.eqb (dim_3 (intrins cp)) 4) ib tr ir K p) = Some smp.
Proof.
  unfold point_sampling_samples. intros Hs He.
  destruct (denormalize pc l h) as [h1|]; [|done]. simpl in Hs.
  destruct (h1 !! l) as [t|] eqn:Hl; [|done]. simpl in Hs.
  destruct (mapM inverse (bda cp)) as [ibs|] eqn:Hib; [|done].
  simpl in Hs.
  destruct (mapM (mapM inverse) (rots cp)) as [irs|] eqn:Hir; [|done].
  simpl in Hs.
  destruct (tabulate_samples proj cp ibs irs t) as [s'|] eqn:Ht; [|done].
  simpl in Hs. injection Hs as <- <-.
  destruct (tabulate_samples_guards _ _ _ _ _ _ Ht)
    as (Hpts & _ & _ & _ & _ & _ & Hprs & Hpts2).
  destruct (tabulate_samples_entry _ _ _ _ _ _ _ _ _ _ _ Ht He)
    as (p & ib & tr & ir & K & pr & pt & Hp & Hibb & Htr & Hirb & HK
        & Hpr & Hpt & Hproj).
  destruct (mapM_lookup_r _ _ _ _ _ Hib Hibb) as (mb & Hmb & Hinvb).
  destruct (irs !! b) as [irb|] eqn:Hirs; [|done]. simpl in Hirb.
  destruct (mapM_lookup_r _ _ _ _ _ Hir Hirs) as (rb & Hrb & Hinvr).
  destruct (mapM_lookup_r _ _ _ _ _ Hinvr Hirb) as (mr & Hmr & Hinvm).
  exists t, p, mb, ib, mr, ir, tr, K, pr, pt.
  split; [done|]. split; [done|]. split.
  { unfold entry3 in Hp.
    destruct (t !! b) as [tb|] eqn:Htb; [|done]. simpl in Hp.
    destruct (tb !! d) as [td|] eqn:Htd; [|done]. simpl in Hp.
    pose proof (Forall_lookup_1 _ _ _ _ Hpts Htb) as H1.
    pose proof (Forall_lookup_1 _ _ _ _ H1 Htd) as H2.
    by apply (Forall_lookup_1 _ _ _ _ H2 Hp). }
  split; [done|]. split; [done|].
  split; [by rewrite Hrb|]. split; [done|].
  split; [done|]. split; [done|]. split; [done|].
  split; [by eapply per_camera_lookup_P|]. split; [done|].
  split; [|done]. by eapply (per_camera_lookup_P _ _ _ _ _ _ _ Hpts2).
Qed.

(** The base projection of one entry, written out. *)
Lemma project_formula ogfH ogfW pr pt cam smp :
  project ogfH ogfW pr pt cam = Some smp →
  has_block_2x2 pr → (2 ≤ length pt)%nat →
  ∃ cx cy rest r11 r12 ra r21 r22 rb rc t1 t2 tc x y,
    cam = cx :: cy :: raw_depth smp :: rest ∧
    pr = (r11 :: r12 :: ra) :: (r21 :: r22 :: rb) :: rc ∧
    pt = t1 :: t2 :: tc ∧
    reference_points_cam smp = [x; y] ∧
    volume_mask smp = visible (raw_depth smp) x y ∧
    x == (r11 * (cx / divisor (raw_depth smp))
          + r12 * (cy / divisor (raw_depth smp)) + t1) / ogfW ∧
    y == (r21 * (cx / divisor (raw_depth smp))
          + r22 * (cy / divisor (raw_depth smp)) + t2) / ogfH.
Proof.
  intros Hp [Hlen Hrows] Hpt.
  destruct pr as [|[|r11 [|r12 ra]] [|[|r21 [|r22 rb]] rc]];
    simpl in Hlen, Hrows; try lia;
    repeat match goal with
           | H : Forall _ (_ :: _) |- _ =>
               apply Forall_cons_1 in H as [? H]
           end; simpl in *; try lia.
  destruct pt as [|t1 [|t2 tc]]; simpl in Hpt; try lia.
  destruct cam as [|cx [|cy [|dep rest]]]; try done.
  simpl in Hp. injection Hp as <-. simpl.
  eexists cx, cy, rest, r11, r12, ra, r21, r22, rb, rc, t1, t2, tc, _, _.
  repeat (split; [reflexivity|]). unfold dot. simpl.
  split; (apply Qdiv_comp; [ring|reflexivity]).
Qed.

(** ** Claims on [get_reference_points] *)

(** C3, as stated, fails: with [Z = 8] and four points in a pillar the
    levels are not at [(level + 0.5) / Z]; level 1 is at [17/48], not at
    [3/16]. *)
Lemma C3_counterexample : ¬ emits_centres (height_by_index 8) 1 1 8 4 1.
Proof.
  intros (t & Ht & Hall).
  destruct (Hall 0 1 0 0)%nat as (x & y & z & Hp & _ & _ & Hz); [lia..|].
  vm_compute in Ht. injection Ht as <-.
  vm_compute in Hp. injection Hp as <- <- <-.
  vm_compute in Hz. discriminate.
Qed.

(** C3 (amended): [get_reference_points] with [dim='3d'] emits, for each
    level [k < num_points_in_pillar] and each cell [(row, col)] of the grid,
    the point [((col+0.5)/W, (row+0.5)/H, z_k)] at position [row*W + col],
    where [z_k = (0.5 + k*(Z-1)/(num_points_in_pillar-1)) / Z] is the [k]-th
    of the evenly spaced samples from [0.5] to [Z-0.5], divided by [Z].  For
    one point in a pillar on a 2x2 grid these are exactly the four points
    with z-coordinate [0.5/Z] and (x, y) = (0.25, 0.25), (0.75, 0.25),
    (0.25, 0.75), (0.75, 0.75).  [Z] is not zero: a division by zero is
    outside the exact arithmetic of the embedding. *)
Theorem C3_reference_points_3d (H W : nat) (Z : Q) (npp bs : nat) :
  ¬ Z == 0 →
  emits_centres (height_evenly_spaced Z npp) H W Z npp bs ∧
  ∃ t, get_reference_points 2 2 Z 1 "3d" bs = Tensor t ∧
       length t = bs ∧
       ∀ b tb, t !! b = Some tb →
         ∃ p0 p1 p2 p3, tb = [[p0; p1; p2; p3]] ∧
           point_eq p0 [1#4; 1#4; (1#2) / Z] ∧
           point_eq p1 [3#4; 1#4; (1#2) / Z] ∧
           point_eq p2 [1#4; 3#4; (1#2) / Z] ∧
           point_eq p3 [3#4; 3#4; (1#2) / Z].
Proof.
  intros _. split.
  - unfold emits_centres.
    eexists. split; [reflexivity|].
    intros b k row col Hb Hk Hrow Hcol.
    destruct (lookup_linspace (1#2) (Qofnat W - (1#2)) W col Hcol)
      as (vx & Hvx & Ex).
    destruct (lookup_linspace (1#2) (Qofnat H - (1#2)) H row Hrow)
      as (vy & Hvy & Ey).
    destruct (lookup_linspace (1#2) (Z - (1#2)) npp k Hk)
      as (vz & Hvz & Ez).
    destruct (get_reference_points_3d_entry H W Z npp bs b k row col
                vx vy vz) as (t & Ht & Hp); [done..|].
    unfold get_reference_points in Ht. simpl in Ht. injection Ht as <-.
    eexists _, _, _. split; [exact Hp|].
    split; [by apply centre_coordinate|].
    split; [by apply centre_coordinate|].
    unfold height_evenly_spaced. rewrite Ez.
    apply Qdiv_comp; [|reflexivity].
    apply Qplus_comp; [reflexivity|]. apply Qmult_comp; [reflexivity|].
    apply Qdiv_comp; [ring|reflexivity].
  - eexists. split; [reflexivity|]. split; [apply length_replicate|].
    intros b tb Hb. apply lookup_replicate in Hb as [-> _].
    eexists _, _, _, _. split; [vm_compute; reflexivity|].
    repeat split; repeat constructor; reflexivity.
Qed.

(** The instance the claim singles out, at [Z = 8] and one batch item. *)
Lemma C3_reference_points_3d_witness :
  ∃ t, get_reference_points 2 2 8 1 "3d" 1 = Tensor t ∧
       length t = 1%nat ∧
       ∀ b tb, t !! b = Some tb →
         ∃ p0 p1 p2 p3, tb = [[p0; p1; p2; p3]] ∧
           point_eq p0 [1#4; 1#4; (1#2) / 8] ∧
           point_eq p1 [3#4; 1#4; (1#2) / 8] ∧
           point_eq p2 [1#4; 3#4; (1#2) / 8] ∧
           point_eq p3 [3#4; 3#4; (1#2) / 8].
Proof.
  refine (proj2 (C3_reference_points_3d 2 2 8 1 1 _)). discriminate.
Defined.

(** C9: with a [dim] that is neither ['3d'] nor ['2d'] the function falls
    through both branches and returns [None]. *)
Theorem C9_other_dim_returns_none (H W : nat) (Z : Q) (npp : nat)
    (dim : string) (bs : nat) :
  dim ≠ "3d" → dim ≠ "2d" →
  get_reference_points H W Z npp dim bs = PyNone.
Proof.
  intros H3 H2. unfold get_reference_points.
  apply String.eqb_neq in H3, H2. by rewrite H3, H2.
Qed.

Lemma C9_other_dim_returns_none_witness :
  get_reference_points 200 200 8 4 "bev" 1 = PyNone.
Proof. by apply C9_other_dim_returns_none. Defined.

(** ** Claims on [point_sampling] *)

(** C1: [VoxFormerEncoder.point_sampling] returns a mask of shape
    [(num_cam, bs, num_query, D)], so with an entry for every camera, batch
    item, sample point and height level.  Each entry is [True] exactly when
    the camera-space depth [d] of that entry exceeds [eps] and both
    normalized pixel coordinates lie strictly between [eps] and [1 - eps],
    with [eps = 1e-5].  So it is [False] whenever [d <= eps], whatever the
    pixel coordinates, and whenever a pixel coordinate is at or below 0 or
    at or above 1. *)
Theorem C1_visibility_mask (self : projector) (h : heap) (l : loc)
    (pc : list Q) (cp : cam_params)
    (pts : tensor4 vec) (mask : tensor4 bool) (h' : heap) :
  point_sampling self h l pc cp = Some (pts, mask, h') →
  ∃ t depth,
    h !! l = Some t ∧
    camera_depth self h l pc cp = Some depth ∧
    has_shape4 (num_cam cp) (length t) (size_2 t) (size_1 t) mask ∧
    (∀ n b q d,
       (n < num_cam cp)%nat → (b < length t)%nat →
       (q < size_2 t)%nat → (d < size_1 t)%nat →
       is_Some (entry mask n b q d)) ∧
    ∀ n b q d m, entry mask n b q d = Some m →
      ∃ dep x_norm y_norm,
        entry depth n b q d = Some dep ∧
        entry pts n b q d = Some [x_norm; y_norm] ∧
        (m = true ↔
           eps < dep ∧ (eps < x_norm ∧ x_norm < 1 - eps)
                     ∧ (eps < y_norm ∧ y_norm < 1 - eps)) ∧
        (dep <= eps → m = false) ∧
        (x_norm <= 0 ∨ 1 <= x_norm ∨ y_norm <= 0 ∨ 1 <= y_norm →
         m = false) ∧
        eps == 1 / 100000.
Proof.
  unfold point_sampling, camera_depth. intros Hps.
  destruct (final_dim self) as [ogfH ogfW].
  destruct (point_sampling_samples (project ogfH ogfW) h l pc cp)
    as [[s h1]|] eqn:Hs; [|done].
  simpl in *. injection Hps as <- <- <-.
  assert (∃ t, h !! l = Some t) as [t Ht].
  { unfold point_sampling_samples in Hs.
    destruct (denormalize pc l h) as [h2|] eqn:Hd; [|done].
    apply denormalize_inv in Hd as (t & Ht & _). by exists t. }
  pose proof (point_sampling_samples_shape _ _ _ _ _ _ _ _ Hs Ht) as Hsh.
  exists t. eexists. split; [done|]. split; [done|].
  split; [by apply has_shape4_map4|]. split.
  { intros n b q d Hn Hb Hq Hd.
    eapply has_shape4_entry; [by apply has_shape4_map4|done..]. }
  intros n b q d m Hm. rewrite entry_map4 in Hm.
  destruct (entry s n b q d) as [smp|] eqn:He; [|done].
  simpl in Hm. injection Hm as <-.
  destruct (point_sampling_samples_entry _ _ _ _ _ _ _ _ _ _ _ _ Hs He)
    as (pr & pt & cam & Hp).
  apply project_sample in Hp as (x & y & _ & _ & Hc & Hv).
  exists (raw_depth smp), x, y. rewrite !entry_map4, He. simpl.
  rewrite Hc, Hv. split; [done|]. split; [done|].
  split; [apply visible_spec|].
  split; [apply visible_depth_gate|].
  split; [apply visible_outside|reflexivity].
Qed.

Lemma C1_visibility_mask_witness :
  ∃ pts mask (h' : heap),
    point_sampling unit_projector one_point 0 unit_range identity_camera
    = Some (pts, mask, h') ∧
    ∃ t depth,
      one_point !! 0%nat = Some t ∧
      camera_depth unit_projector one_point 0 unit_range identity_camera
      = Some depth ∧
      has_shape4 (num_cam identity_camera) (length t) (size_2 t) (size_1 t)
        mask ∧
      (∀ n b q d,
         (n < num_cam identity_camera)%nat → (b < length t)%nat →
         (q < size_2 t)%nat → (d < size_1 t)%nat →
         is_Some (entry mask n b q d)) ∧
      ∀ n b q d m, entry mask n b q d = Some m →
        ∃ dep x_norm y_norm,
          entry depth n b q d = Some dep ∧
          entry pts n b q d = Some [x_norm; y_norm] ∧
          (m = true ↔
             eps < dep ∧ (eps < x_norm ∧ x_norm < 1 - eps)
                       ∧ (eps < y_norm ∧ y_norm < 1 - eps)) ∧
          (dep <= eps → m = false) ∧
          (x_norm <= 0 ∨ 1 <= x_norm ∨ y_norm <= 0 ∨ 1 <= y_norm →
           m = false) ∧
          eps == 1 / 100000.
Proof.
  assert (∃ pts mask (h' : heap),
    point_sampling unit_projector one_point 0 unit_range identity_camera
    = Some (pts, mask, h')) as (pts & mask & h' & Hps).
  { eexists _, _, _. vm_compute. reflexivity. }
  exists pts, mask, h'. split; [exact Hps|].
  exact (C1_visibility_mask unit_projector one_point 0%nat unit_range
           identity_camera pts mask h' Hps).
Defined.

(** C7: the perspective divide of [point_sampling] divides the two pixel
    components by [max(d, eps)], which is at least [eps = 1e-5] and so
    strictly positive.  On inputs of the shapes the function names in its
    [view]s the call returns for every value of the depth [d], with an
    entry for every camera, batch item, sample point and height level;
    each returned point is the camera-space point divided by
    [max(d, eps)] and taken through the post-transform, and a depth at or
    below [eps] shows only as a [False] in the mask. *)
Theorem C7_perspective_divide (self : projector) (h : heap) (l : loc)
    (pc : list Q) (cp : cam_params) (t : tensor4 Q) :
  h !! l = Some t → well_shaped t pc cp →
  (∀ d, divisor d == Qmax d eps ∧ 0 < divisor d) ∧
  (∀ ogfH ogfW r11 r12 ra r21 r22 rb rc t1 t2 tc cx cy d rest,
     ∃ smp x y,
       project ogfH ogfW
         ((r11 :: r12 :: ra) :: (r21 :: r22 :: rb) :: rc) (t1 :: t2 :: tc)
         (cx :: cy :: d :: rest) = Some smp ∧
       reference_points_cam smp = [x; y] ∧
       x == (r11 * (cx / divisor d) + r12 * (cy / divisor d) + t1) / ogfW ∧
       y == (r21 * (cx / divisor d) + r22 * (cy / divisor d) + t2) / ogfH) ∧
  ∃ pts mask depth h' t',
    point_sampling self h l pc cp = Some (pts, mask, h') ∧
    camera_depth self h l pc cp = Some depth ∧
    h' !! l = Some t' ∧
    has_shape4 (num_cam cp) (length t) (size_2 t) (size_1 t) pts ∧
    has_shape4 (num_cam cp) (length t) (size_2 t) (size_1 t) mask ∧
    ∀ n b q d,
      (n < num_cam cp)%nat → (b < length t)%nat →
      (q < size_2 t)%nat → (d < size_1 t)%nat →
      ∃ dep x y m,
        entry depth n b q d = Some dep ∧
        entry pts n b q d = Some [x; y] ∧
        entry mask n b q d = Some m ∧
        projected_from self cp t' n b q d dep x y ∧
        m = visible dep x y ∧
        (dep <= eps → m = false).
Proof.
  intros Ht Hws. split; [|split].
  - intros d. split; [apply divisor_spec|apply divisor_pos].
  - intros. eexists _, _, _. split; [reflexivity|]. simpl.
    split; [reflexivity|]. unfold dot. simpl.
    split; (apply Qdiv_comp; [ring|reflexivity]).
  - unfold point_sampling, camera_depth, projected_from.
    destruct (final_dim self) as [ogfH ogfW].
    destruct (point_sampling_samples_total ogfH ogfW h l pc cp t Ht Hws)
      as (s & h' & Hs & Hall).
    pose proof (point_sampling_samples_shape _ _ _ _ _ _ _ _ Hs Ht) as Hsh.
    rewrite Hs. simpl.
    assert (∃ t', h' !! l = Some t') as [t' Ht'].
    { destruct (point_sampling_samples_heap _ _ _ _ _ _ _ _ Hs Ht)
        as (r0 & r1 & r2 & r3 & r4 & r5 & _ & _ & _ & _ & _ & _ & ->).
      eexists. apply lookup_insert_eq. }
    eexists _, _, _, _, t'. split; [done|]. split; [done|].
    split; [done|].
    split; [by apply has_shape4_map4|]. split; [by apply has_shape4_map4|].
    intros n b q d Hn Hb Hq Hd.
    destruct (Hall n b q d) as [smp He]; [done..|].
    rewrite !entry_map4, He. simpl.
    destruct (point_sampling_samples_chain _ _ _ _ _ _ _ _ _ _ _ _ Hs He)
      as (t'' & p & mb & ib & mr & ir & tr & K & pr & pt & Ht'' & Hp & _
          & Hmb & Hib & Hmr & Hir & Htr & HK & Hpr & Hblock & Hpt & Hlpt
          & Hproj).
    assert (t'' = t') as -> by congruence.
    destruct (project_formula _ _ _ _ _ _ Hproj Hblock Hlpt)
      as (cx & cy & rest & r11 & r12 & ra & r21 & r22 & rb & rc & t1 & t2
          & tc & x & y & Hcam & -> & -> & Hc & Hv & Hx & Hy).
    exists (raw_depth smp), x, y, (volume_mask smp).
    split; [done|]. split; [by rewrite Hc|]. split; [done|].
    split.
    { exists p, mb, ib, mr, ir, tr, K, cx, cy, rest, r11, r12, ra, r21,
        r22, rb, rc, t1, t2, tc. simpl. by repeat (split; [done|]). }
    split; [done|]. rewrite Hv. apply visible_depth_gate.
Qed.

Lemma C7_perspective_divide_witness :
  ∃ pts mask depth h' t',
    point_sampling unit_projector point_behind 0 unit_range identity_camera
    = Some (pts, mask, h') ∧
    camera_depth unit_projector point_behind 0 unit_range identity_camera
    = Some depth ∧
    h' !! 0%nat = Some t' ∧
    has_shape4 (num_cam identity_camera) 1 1 1 pts ∧
    has_shape4 (num_cam identity_camera) 1 1 1 mask ∧
    ∀ n b q d,
      (n < num_cam identity_camera)%nat → (b < 1)%nat →
      (q < 1)%nat → (d < 1)%nat →
      ∃ dep x y m,
        entry depth n b q d = Some dep ∧
        entry pts n b q d = Some [x; y] ∧
        entry mask n b q d = Some m ∧
        projected_from unit_projector identity_camera t' n b q d dep x y ∧
        m = visible dep x y ∧
        (dep <= eps → m = false).
Proof.
  refine (proj2 (proj2 (C7_perspective_divide unit_projector point_behind
    0%nat unit_range identity_camera [[[ [1 # 2; 1 # 2; - (1)] ]]] _ _))).
  - reflexivity.
  - unfold well_shaped, rectangular, per_camera, invertible, square,
      has_block_2x2. simpl.
    repeat split; repeat constructor; simpl; try lia;
      by (eexists; vm_compute).
Defined.

(** C4, as stated, fails: with the SemanticKITTI range the call leaves
    [(25.6, 0, 2.4)] where the caller had [(0.5, 0.5, 1)]. *)
Lemma C4_counterexample :
  ¬ leaves_reference_points unit_projector one_point 0 kitti_range
      identity_camera.
Proof.
  intros Hleave.
  destruct (point_sampling unit_projector one_point 0%nat kitti_range
              identity_camera) as [[[pts mask] h']|] eqn:Hps;
    [|by vm_compute in Hps].
  destruct (Hleave pts mask h' _ Hps eq_refl) as (t' & Ht' & Heq).
  vm_compute in Hps. injection Hps as _ _ <-.
  vm_compute in Ht'. injection Ht' as <-.
  do 3 (apply Forall2_cons_1 in Heq as [Heq _]).
  apply Forall2_cons_1 in Heq as [Heq _].
  vm_compute in Heq. discriminate.
Qed.

(** C2 does not hold of the code.  On the fixture (depth 1, pixel
    (0.5, 0.5), depth bounds 2 and 58) both variants return the same two
    pixel channels and the DFA3D variant adds the normalized depth
    [(1 - 2) / (58 - 2)], but the masks differ: the base variant marks the
    point visible, the DFA3D variant does not, because its mask compares the
    normalized depth with [eps]. *)
Theorem C2_masks_differ_below_near_bound :
  ∃ x y z h',
    point_sampling unit_projector one_point 0 unit_range identity_camera
    = Some ([[[[ [x; y] ]]]], [[[[ true ]]]], h') ∧
    point_sampling_DFA3D unit_projector one_point 0 unit_range
      identity_camera
    = Some ([[[[ [x; y; z] ]]]], [[[[ false ]]]], h') ∧
    x == 1 # 2 ∧ y == 1 # 2 ∧ z == (1 - 2) / (58 - 2).
Proof.
  eexists _, _, _, _. split; [vm_compute; reflexivity|].
  split; [vm_compute; reflexivity|]. by vm_compute.
Qed.

(** ** Claims on [VoxFormerEncoder.forward] *)

(** C4 (amended): [point_sampling] rewrites its argument
    [reference_points] in place.  After a call every point [(x, y, z)] of
    that tensor holds the de-normalized coordinates
    [(x*(r3-r0)+r0, y*(r4-r1)+r1, z*(r5-r2)+r2)], where [r0..r5] are the
    entries of [pc_range]; no other object on the heap changes.  The
    encoder hands this same, rewritten tensor to every layer: [forward]
    returns what the replay of its layers gives, each layer being called
    with [ref_3d] naming that tensor, in the heap the call left. *)
Theorem C4_reference_points_rewritten (self : projector) (h : heap)
    (l : loc) (pc : list Q) (cp : cam_params)
    (pts : tensor4 vec) (mask : tensor4 bool) (h' : heap) (t : tensor4 Q) :
  point_sampling self h l pc cp = Some (pts, mask, h') →
  h !! l = Some t →
  (∃ r0 r1 r2 r3 r4 r5 t',
     pc !! 0%nat = Some r0 ∧ pc !! 1%nat = Some r1 ∧ pc !! 2%nat = Some r2 ∧
     pc !! 3%nat = Some r3 ∧ pc !! 4%nat = Some r4 ∧ pc !! 5%nat = Some r5 ∧
     h' !! l = Some t' ∧
     (∀ b d q x y z,
        entry3 t b d q = Some [x; y; z] →
        entry3 t' b d q
        = Some [x * (r3 - r0) + r0; y * (r4 - r1) + r1;
                z * (r5 - r2) + r2]) ∧
     (∀ l', l' ≠ l → h' !! l' = h !! l')) ∧
  (∀ T size1 permute_102 (enc : VoxFormerEncoder T)
     bev_query key value bev_h bev_w bev_pos ss lsi prev_bev,
     enc_projector enc = self → pc_range enc = pc →
     ∃ g outs,
       let call :=
         forward_call key value (permute_102 <$> bev_pos) (hybird g) l
           bev_h bev_w ss lsi pts mask prev_bev in
       forward_ref_2d size1 bev_query = Tensor g ∧
       (∀ q, lc_ref_3d (call q) = l) ∧
       length outs = length (layers enc) ∧
       (∀ i layer q_in,
          layers enc !! i = Some layer →
          match i with
          | O => q_in = permute_102 bev_query
          | S j => outs !! j = Some q_in
          end →
          outs !! i = Some (layer h' (call q_in))) ∧
       forward size1 permute_102 enc h bev_query key value l bev_h bev_w
         bev_pos ss lsi cp prev_bev
       = forward_result enc bev_query outs h').
Proof.
  intros Hps Ht. split.
  - destruct (point_sampling_heap _ _ _ _ _ _ _ _ _ Hps Ht)
      as (r0 & r1 & r2 & r3 & r4 & r5 & ? & ? & ? & ? & ? & ? & ->).
    eexists r0, r1, r2, r3, r4, r5, _. repeat (split; [done|]).
    split; [apply lookup_insert_eq|]. split.
    + intros b d q x y z Hp.
      by rewrite !entry3_rescale_channel, Hp.
    + intros l' Hl'. by rewrite lookup_insert_ne.
  - intros T size1 permute_102 enc bev_query key value bev_h bev_w bev_pos
      ss lsi prev_bev Hself Hpc. subst self pc.
    destruct (get_reference_points_2d 512 512 8 4 (size1 bev_query))
      as (g & Hg & _).
    change (forward_ref_2d size1 bev_query = Tensor g) in Hg.
    destruct (forward_replayed size1 permute_102 enc h bev_query key value
                l bev_h bev_w bev_pos ss lsi cp prev_bev pts mask h' g
                Hg Hps) as (outs & Hrep & Hfw).
    exists g, outs. simpl. split; [done|]. split; [done|].
    split; [apply Hrep|]. split; [|done].
    intros i layer q_in Hl Hq. by eapply replayed_output.
Qed.

Lemma C4_reference_points_rewritten_witness :
  ∃ (h' : heap) r0 r1 r2 r3 r4 r5 t',
     kitti_range !! 0%nat = Some r0 ∧ kitti_range !! 1%nat = Some r1 ∧
     kitti_range !! 2%nat = Some r2 ∧ kitti_range !! 3%nat = Some r3 ∧
     kitti_range !! 4%nat = Some r4 ∧ kitti_range !! 5%nat = Some r5 ∧
     h' !! 0%nat = Some t' ∧
     (∀ b d q x y z,
        entry3 [[[ [1 # 2; 1 # 2; 1] ]]] b d q = Some [x; y; z] →
        entry3 t' b d q
        = Some [x * (r3 - r0) + r0; y * (r4 - r1) + r1;
                z * (r5 - r2) + r2]) ∧
     (∀ l', l' ≠ 0%nat → h' !! l' = one_point !! l').
Proof.
  eexists.
  refine (proj1 (C4_reference_points_rewritten unit_projector one_point
    0%nat kitti_range identity_camera _ _ _ _ _ _)).
  - vm_compute. reflexivity.
  - reflexivity.
Defined.

(** C5: the 2-D reference points [forward] hands to its layers are those
    of [get_reference_points(512, 512, dim='2d', bs)], with
    [bs = bev_query.size(1)]: every batch item has 512 * 512 points, the
    point of cell [(row, col)] is [((col+0.5)/512, (row+0.5)/512)], and
    each batch item appears twice in the stacked tensor.  Whatever [bev_h]
    and [bev_w] the caller supplies, [forward] returns what the replay of
    its layers gives with this tensor as [ref_2d]; a layer that is a
    [VoxFormerLayer] receives it as its parameter [ref_2d], and each of its
    ['self_attn'] steps hands it to the temporal self-attention as
    reference points, [bev_h] and [bev_w] going into [spatial_shapes]
    only. *)
Theorem C5_ref_2d_fixed_grid {T} (size1 : T → nat) (permute_102 : T → T)
    (self : VoxFormerEncoder T) (bev_query : T) :
  ∃ g,
    forward_ref_2d size1 bev_query = Tensor g ∧
    length g = size1 bev_query ∧
    (∀ b gb, g !! b = Some gb → length gb = (512 * 512)%nat) ∧
    (∀ b row col,
       (b < size1 bev_query)%nat → (row < 512)%nat → (col < 512)%nat →
       ∃ x y,
         entry3 g b (row * 512 + col)%nat 0%nat = Some [x; y] ∧
         x == (Qofnat col + (1#2)) / 512 ∧
         y == (Qofnat row + (1#2)) / 512) ∧
    (∀ b k, (k < 2)%nat → hybird g !! (b * 2 + k)%nat = g !! b) ∧
    ∀ h key value ref_3d bev_h bev_w bev_pos ss lsi cp prev_bev
      pts mask h',
      point_sampling (enc_projector self) h ref_3d (pc_range self) cp
      = Some (pts, mask, h') →
      ∃ outs,
        let call :=
          forward_call key value (permute_102 <$> bev_pos) (hybird g)
            ref_3d bev_h bev_w ss lsi pts mask prev_bev in
        (∀ q, lc_ref_2d (call q) = hybird g) ∧
        length outs = length (layers self) ∧
        (∀ i layer q_in,
           layers self !! i = Some layer →
           match i with
           | O => q_in = permute_102 bev_query
           | S j => outs !! j = Some q_in
           end →
           outs !! i = Some (layer h' (call q_in))) ∧
        forward size1 permute_102 self h bev_query key value ref_3d
          bev_h bev_w bev_pos ss lsi cp prev_bev
        = forward_result self bev_query outs h' ∧
        (∀ kw vl i layer q_in out w,
           layers self !! i = Some layer →
           is_VoxFormerLayer kw vl layer →
           match i with
           | O => q_in = permute_102 bev_query
           | S j => outs !! j = Some q_in
           end →
           layer_forward vl q_in (layer_args_of_call kw (call q_in))
           = Some (out, w) →
           outs !! i = Some out ∧
           la_ref_2d T (layer_args_of_call kw (call q_in))
           = Some (hybird g)) ∧
        (∀ kw (vl : VoxFormerLayer T) q masks st st',
           step vl (layer_args_of_call kw (call q)) masks st "self_attn"
           = Some st' →
           ∃ attention attn_mask bh bw,
             attentions vl !! attn_index st = Some attention ∧
             masks !! attn_index st = Some attn_mask ∧
             bev_h = Some bh ∧ bev_w = Some bw ∧
             query st'
             = attention
                 (self_attn_call_of kw vl (call q) st attn_mask bh bw) ∧
             ac_reference_points T
               (self_attn_call_of kw vl (call q) st attn_mask bh bw)
             = Ref2d (Some (hybird g)) ∧
             ac_spatial_shapes T
               (self_attn_call_of kw vl (call q) st attn_mask bh bw)
             = Some [(bh, bw)]).
Proof.
  destruct (get_reference_points_2d 512 512 8 4 (size1 bev_query))
    as (g & Hg & Hlen & Hrows & Hentry).
  change (forward_ref_2d size1 bev_query = Tensor g) in Hg.
  exists g. split; [exact Hg|]. split; [exact Hlen|].
  split; [exact Hrows|]. split; [|split].
  - intros b row col Hb Hrow Hcol.
    destruct (lookup_linspace (1#2) (Qofnat 512 - (1#2)) 512 col Hcol)
      as (vx & Hvx & Ex).
    destruct (lookup_linspace (1#2) (Qofnat 512 - (1#2)) 512 row Hrow)
      as (vy & Hvy & Ey).
    eexists _, _. split; [by apply Hentry|].
    split; by apply centre_coordinate.
  - intros b k Hk. by apply lookup_hybird.
  - intros h key value ref_3d bev_h bev_w bev_pos ss lsi cp prev_bev
      pts mask h' Hps.
    destruct (forward_replayed size1 permute_102 self h bev_query key value
                ref_3d bev_h bev_w bev_pos ss lsi cp prev_bev pts mask h' g
                Hg Hps) as (outs & Hrep & Hfw).
    exists outs. cbv zeta. split; [done|]. split; [apply Hrep|].
    split; [|split; [done|split]].
    + intros i layer q_in Hl Hq. by eapply replayed_output.
    + intros kw vl i layer q_in out w Hl Hvl Hq Hfwd. split; [|done].
      rewrite (replayed_output _ _ _ _ _ _ _ _ Hrep Hl Hq). f_equal.
      by eapply Hvl.
    + intros kw vl q masks st st' Hstep.
      apply step_self_attn_of_call
        in Hstep as (att & am & bh & bw & Ha & Hm & Hh & Hw & Hq).
      by exists att, am, bh, bw.
Qed.

(** C6, as stated, fails in its last part: the same call made twice on
    the same tensors does not return the same output.  The first call
    leaves [ref_3d] de-normalized, the second de-normalizes it again and
    projects other points; with the SemanticKITTI range and a layer that
    returns the first projected point, the first call returns
    [(64/11, 0)] and the second about [(50.1, -0.98)]. *)
Lemma C6_counterexample :
  ¬ repeatable (λ _ : vec, 1%nat) id probe_encoder one_point
      [] [] [] 0%nat (Some 128%nat) (Some 128%nat) None None None
      identity_camera None.
Proof.
  intros Hrep.
  destruct (get_reference_points_2d 512 512 8 4 1) as (g & Hg & _).
  change (forward_ref_2d (λ _ : vec, 1%nat) [] = Tensor g) in Hg.
  assert (∃ o1 (h1 : heap) o2 (h2 : heap),
    forward (λ _ : vec, 1%nat) id probe_encoder one_point [] [] [] 0%nat
      (Some 128%nat) (Some 128%nat) None None None identity_camera None
    = Some (o1, h1) ∧
    forward (λ _ : vec, 1%nat) id probe_encoder h1 [] [] [] 0%nat
      (Some 128%nat) (Some 128%nat) None None None identity_camera None
    = Some (o2, h2) ∧
    o1 ≠ o2) as (o1 & h1 & o2 & h2 & E1 & E2 & Hne).
  { eexists _, _, _, _. split; [|split].
    - unfold forward. rewrite Hg. vm_compute. reflexivity.
    - unfold forward. rewrite Hg. vm_compute. reflexivity.
    - vm_compute. intros [=]. }
  exact (Hne (Hrep _ _ _ _ E1 E2)).
Qed.

(** C6 (amended): when the projection succeeds and the encoder has layers,
    [forward] replays the layers in sequence, the first on the permuted
    [bev_query] and each later one on the output before it, all of them in
    the heap the projection left and with the points and the mask it
    returned.  Without [return_intermediate] it returns the last layer's
    output alone; with it, the stack of all outputs, one per layer and in
    layer order.  The call leaves [ref_3d] de-normalized, which is what a
    later call on the same tensor starts from. *)
Theorem C6_forward_output {T} (size1 : T → nat) (permute_102 : T → T)
    (self : VoxFormerEncoder T) (h : heap) (bev_query key value : T)
    (ref_3d : loc) (bev_h bev_w : option nat) (bev_pos : option T)
    (ss : option (list (nat * nat))) (lsi : option (list nat))
    (cp : cam_params) (prev_bev : option T)
    (pts : tensor4 vec) (mask : tensor4 bool) (h' : heap) :
  point_sampling (enc_projector self) h ref_3d (pc_range self) cp
  = Some (pts, mask, h') →
  layers self ≠ [] →
  ∃ g outs o,
    forward_ref_2d size1 bev_query = Tensor g ∧
    replayed h'
      (forward_call key value (permute_102 <$> bev_pos) (hybird g) ref_3d
         bev_h bev_w ss lsi pts mask prev_bev)
      (layers self) (permute_102 bev_query) outs ∧
    length outs = length (layers self) ∧
    last outs = Some o ∧
    forward size1 permute_102 self h bev_query key value ref_3d
      bev_h bev_w bev_pos ss lsi cp prev_bev
    = Some (if return_intermediate self then Stacked outs else Output o,
            h') ∧
    ∃ t t' r0 r1 r2 r3 r4 r5,
      h !! ref_3d = Some t ∧ h' !! ref_3d = Some t' ∧
      pc_range self !! 0%nat = Some r0 ∧ pc_range self !! 1%nat = Some r1 ∧
      pc_range self !! 2%nat = Some r2 ∧ pc_range self !! 3%nat = Some r3 ∧
      pc_range self !! 4%nat = Some r4 ∧ pc_range self !! 5%nat = Some r5 ∧
      ∀ b d q x y z,
        entry3 t b d q = Some [x; y; z] →
        entry3 t' b d q
        = Some [x * (r3 - r0) + r0; y * (r4 - r1) + r1;
                z * (r5 - r2) + r2].
Proof.
  intros Hps Hne.
  destruct (get_reference_points_2d 512 512 8 4 (size1 bev_query))
    as (g & Hg & _).
  change (forward_ref_2d size1 bev_query = Tensor g) in Hg.
  assert (∃ t t' r0 r1 r2 r3 r4 r5,
      h !! ref_3d = Some t ∧ h' !! ref_3d = Some t' ∧
      pc_range self !! 0%nat = Some r0 ∧ pc_range self !! 1%nat = Some r1 ∧
      pc_range self !! 2%nat = Some r2 ∧ pc_range self !! 3%nat = Some r3 ∧
      pc_range self !! 4%nat = Some r4 ∧ pc_range self !! 5%nat = Some r5 ∧
      ∀ b d q x y z,
        entry3 t b d q = Some [x; y; z] →
        entry3 t' b d q
        = Some [x * (r3 - r0) + r0; y * (r4 - r1) + r1;
                z * (r5 - r2) + r2]) as Hheap.
  { destruct (point_sampling_lookup _ _ _ _ _ _ _ _ Hps) as [t Ht].
    destruct (point_sampling_heap _ _ _ _ _ _ _ _ _ Hps Ht)
      as (r0 & r1 & r2 & r3 & r4 & r5 & ? & ? & ? & ? & ? & ? & ->).
    eexists t, _, r0, r1, r2, r3, r4, r5. split; [done|].
    split; [apply lookup_insert_eq|]. repeat (split; [done|]).
    intros b d q x y z Hp. by rewrite !entry3_rescale_channel, Hp. }
  destruct (run_layers_replayed (return_intermediate self) h'
    (forward_call key value (permute_102 <$> bev_pos) (hybird g) ref_3d
       bev_h bev_w ss lsi pts mask prev_bev)
    (layers self) (permute_102 bev_query) bev_query [])
    as (outs & Hrep & Hrun).
  pose proof Hrep as [Hlen _].
  destruct (last outs) as [o|] eqn:Hlast.
  2: { apply last_None in Hlast. subst outs.
       destruct (layers self); [done|discriminate]. }
  exists g, outs, o. repeat (split; [done|]). split; [|done].
  unfold forward. rewrite Hg. cbn [mbind option_bind].
  rewrite Hps. cbn [mbind option_bind]. rewrite Hrun. simpl.
  destruct (return_intermediate self); [|done].
  destruct outs; [done|]. done.
Qed.

Lemma C6_forward_output_witness :
  ∃ pts mask h' g outs o,
    forward_ref_2d (λ _ : nat, 1%nat) 5%nat = Tensor g ∧
    replayed h'
      (forward_call 0%nat 0%nat (id <$> None) (hybird g) 0%nat
         (Some 128%nat) (Some 128%nat) None None pts mask None)
      (layers (two_layer_encoder true)) (id 5%nat) outs ∧
    length outs = length (layers (two_layer_encoder true)) ∧
    last outs = Some o ∧
    forward (λ _ : nat, 1%nat) id (two_layer_encoder true) one_point
      5%nat 0%nat 0%nat 0%nat (Some 128%nat) (Some 128%nat) None None None
      identity_camera None
    = Some (if return_intermediate (two_layer_encoder true)
            then Stacked outs else Output o, h') ∧
    ∃ t t' r0 r1 r2 r3 r4 r5,
      one_point !! 0%nat = Some t ∧ h' !! 0%nat = Some t' ∧
      pc_range (two_layer_encoder true) !! 0%nat = Some r0 ∧
      pc_range (two_layer_encoder true) !! 1%nat = Some r1 ∧
      pc_range (two_layer_encoder true) !! 2%nat = Some r2 ∧
      pc_range (two_layer_encoder true) !! 3%nat = Some r3 ∧
      pc_range (two_layer_encoder true) !! 4%nat = Some r4 ∧
      pc_range (two_layer_encoder true) !! 5%nat = Some r5 ∧
      ∀ b d q x y z,
        entry3 t b d q = Some [x; y; z] →
        entry3 t' b d q
        = Some [x * (r3 - r0) + r0; y * (r4 - r1) + r1;
                z * (r5 - r2) + r2].
Proof.
  eexists _, _, _.
  eapply (C6_forward_output (λ _ : nat, 1%nat) id (two_layer_encoder true)
            one_point 5%nat 0%nat 0%nat 0%nat).
  - vm_compute. reflexivity.
  - discriminate.
Defined.

(** ** Claims on [VoxFormerLayer.forward] *)

(** C8: a single tensor given as [attn_masks] is copied into one mask per
    attention, [num_attn] of them, and a warning is issued; no mask at all
    gives [num_attn] empty slots and no warning.  On a layer whose
    sub-modules match its operation order the call then runs through and
    returns, with exactly that one warning in the first case. *)
Theorem C8_shared_attn_mask {T} (self : VoxFormerLayer T) (query_in : T)
    (a : layer_args T) (m : T) :
  well_configured self a →
  (∃ w, expand_attn_masks self (MasksTensor m)
        = Some (replicate (num_attn self) (Some m), [w])) ∧
  expand_attn_masks self MasksNone
  = Some (replicate (num_attn self) None, []) ∧
  (∀ i, (i < num_attn self)%nat →
        replicate (num_attn self) (Some m) !! i = Some (Some m) ∧
        replicate (num_attn self) (@None T) !! i = Some None) ∧
  (∃ out w,
     layer_forward self query_in (with_attn_masks (MasksTensor m) a)
     = Some (out, [w])) ∧
  (∃ out,
     layer_forward self query_in (with_attn_masks MasksNone a)
     = Some (out, [])).
Proof.
  intros (Hnum & Hatt & Hnorm & Hffn & Hbev).
  split; [by eexists|]. split; [done|]. split.
  { intros i Hi. by rewrite !lookup_replicate_2. }
  split.
  - unfold layer_forward. simpl.
    edestruct (run_operations_total self
      (with_attn_masks (MasksTensor m) a)
      (replicate (num_attn self) (Some m)) (operation_order self))
      as [st ->]; simpl; rewrite ?length_replicate; try lia; [done|].
    by eexists _, _.
  - unfold layer_forward. simpl.
    edestruct (run_operations_total self
      (with_attn_masks MasksNone a)
      (replicate (num_attn self) None) (operation_order self))
      as [st ->]; simpl; rewrite ?length_replicate; try lia; [done|].
    by eexists.
Qed.

Lemma C8_shared_attn_mask_witness :
  ∃ out w,
    layer_forward (counting_layer usual_order) 1%nat
      (with_attn_masks (MasksTensor 7%nat) (plain_args MasksNone))
    = Some (out, [w]).
Proof.
  refine (proj1 (proj2 (proj2 (proj2 (C8_shared_attn_mask
    (counting_layer usual_order) 1%nat (plain_args MasksNone) 7%nat _))))).
  unfold well_configured. simpl. repeat split; try (vm_compute; lia).
  all: by eexists.
Defined.

(** C10: a tag of the operation order that is none of ['self_attn'],
    ['norm'], ['cross_attn'], ['ffn'] is passed over: the loop body leaves
    the running query, the identity anchor and the three sub-module indices
    as they are and raises nothing, and the call returns what it returns
    without that tag in the order. *)
Theorem C10_unknown_tag_skipped {T} (self : VoxFormerLayer T)
    (query_in : T) (a : layer_args T) (masks : list (option T))
    (st : loop_state T) (layer : string) (pre post : list string) :
  layer ≠ "self_attn" → layer ≠ "norm" → layer ≠ "cross_attn" →
  layer ≠ "ffn" →
  step self a masks st layer = Some st ∧
  layer_forward (with_operation_order (pre ++ layer :: post) self)
    query_in a
  = layer_forward (with_operation_order (pre ++ post) self) query_in a.
Proof.
  intros H1 H2 H3 H4.
  pose proof (known_tag_false layer H1 H2 H3 H4) as Hk.
  split; [by apply step_unknown|].
  rewrite !layer_forward_order.
  destruct (expand_attn_masks self (la_attn_masks a)) as [[ms w]|]; [|done].
  simpl. rewrite !run_operations_app.
  destruct (run_operations self a ms pre _) as [st1|]; [|done].
  simpl. by rewrite step_unknown.
Qed.

Lemma C10_unknown_tag_skipped_witness :
  step (counting_layer usual_order) (plain_args MasksNone) [None; None]
    {| query := 1%nat; identity := 1%nat; attn_index := 0; norm_index := 0;
       ffn_index := 0 |} "dropout"
  = Some {| query := 1%nat; identity := 1%nat; attn_index := 0;
            norm_index := 0; ffn_index := 0 |} ∧
  layer_forward
    (with_operation_order (["self_attn"; "norm"] ++ "dropout" ::
                           ["cross_attn"; "norm"; "ffn"; "norm"])
       (counting_layer usual_order)) 1%nat (plain_args MasksNone)
  = layer_forward
      (with_operation_order (["self_attn"; "norm"] ++
                             ["cross_attn"; "norm"; "ffn"; "norm"])
         (counting_layer usual_order)) 1%nat (plain_args MasksNone).
Proof. by apply C10_unknown_tag_skipped. Defined.

(** ** Further properties of [get_reference_points] *)

Lemma Qofnat_le m n : (m ≤ n)%nat → Qofnat m <= Qofnat n.
Proof. intros Hmn. unfold Qofnat. rewrite <- Zle_Qle. lia. Qed.

Lemma Qofnat_nonneg n : 0 <= Qofnat n.
Proof. apply (Qofnat_le 0 n). lia. Qed.

Lemma Qofnat_pred n : (0 < n)%nat → Qofnat (n - 1) == Qofnat n - 1.
Proof.
  intros Hn. destruct n as [|n]; [lia|].
  replace (S n - 1)%nat with n by lia. rewrite Qofnat_S. ring.
Qed.

(** A cell centre over the number of cells lies strictly between 0 and
    1. *)
Lemma centre_in_unit W col v :
  (col < W)%nat → v == (Qofnat col + (1#2)) / Qofnat W → 0 < v ∧ v < 1.
Proof.
  intros Hcol ->.
  assert (0 < Qofnat W) as HW by (apply Qofnat_pos; lia).
  pose proof (Qofnat_nonneg col) as Hc.
  pose proof (Qofnat_le (S col) W Hcol) as Hle. rewrite Qofnat_S in Hle.
  split.
  - apply Qlt_shift_div_l; [done|]. lra.
  - apply Qlt_shift_div_r; [done|]. lra.
Qed.

(** The point of level [k] and cell [(row, col)]. *)
Lemma reference_point_3d H W Z npp bs b k row col :
  (b < bs)%nat → (k < npp)%nat → (row < H)%nat → (col < W)%nat →
  ∃ t x y z,
    get_reference_points H W Z npp "3d" bs = Tensor t ∧
    entry3 t b k (row * W + col)%nat = Some [x; y; z] ∧
    x == (Qofnat col + (1#2)) / Qofnat W ∧
    y == (Qofnat row + (1#2)) / Qofnat H ∧
    z == ((1#2) + Qofnat k * ((Z - 1) / Qofnat (npp - 1))) / Z.
Proof.
  intros Hb Hk Hrow Hcol.
  destruct (lookup_linspace (1#2) (Qofnat W - (1#2)) W col Hcol)
    as (vx & Hvx & Ex).
  destruct (lookup_linspace (1#2) (Qofnat H - (1#2)) H row Hrow)
    as (vy & Hvy & Ey).
  destruct (lookup_linspace (1#2) (Z - (1#2)) npp k Hk)
    as (vz & Hvz & Ez).
  destruct (get_reference_points_3d_entry H W Z npp bs b k row col
              vx vy vz) as (t & Ht & Hp); [done..|].
  eexists t, _, _, _. split; [done|]. split; [exact Hp|].
  split; [by apply centre_coordinate|].
  split; [by apply centre_coordinate|].
  rewrite Ez. apply Qdiv_comp; [|reflexivity].
  apply Qplus_comp; [reflexivity|]. apply Qmult_comp; [reflexivity|].
  apply Qdiv_comp; [ring|reflexivity].
Qed.

(** The height samples stay strictly inside the pillar. *)
Lemma level_in_pillar Z npp k :
  (k < npp)%nat → 1 # 2 < Z →
  0 < (1#2) + Qofnat k * ((Z - 1) / Qofnat (npp - 1)) ∧
  (1#2) + Qofnat k * ((Z - 1) / Qofnat (npp - 1)) < Z.
Proof.
  intros Hk HZ. destruct (decide (npp = 1%nat)) as [->|Hne].
  { assert (k = 0%nat) as -> by lia.
    assert (Qofnat 0 * ((Z - 1) / Qofnat (1 - 1)) == 0) as ->
      by (unfold Qofnat; simpl; ring).
    split; lra. }
  assert (0 < Qofnat (npp - 1)) as Hn by (apply Qofnat_pos; lia).
  pose proof (Qofnat_nonneg k) as Hk0.
  pose proof (Qofnat_le k (npp - 1)) as Hkn. specialize (Hkn ltac:(lia)).
  set (n := Qofnat (npp - 1)) in *. set (q := Qofnat k) in *.
  assert (q * ((Z - 1) / n) == (q / n) * (Z - 1)) as -> by (field; lra).
  assert (0 <= q / n) as Hl0 by (apply Qle_shift_div_l; lra).
  assert (q / n <= 1) as Hl1 by (apply Qle_shift_div_r; lra).
  set (lam := q / n) in *. clearbody lam.
  destruct (Qlt_le_dec Z 1) as [Hlt|Hge].
  - assert (0 <= lam * (1 - Z)) by (apply Qmult_le_0_compat; lra).
    assert (0 <= (1 - lam) * (1 - Z)) by (apply Qmult_le_0_compat; lra).
    split; lra.
  - assert (0 <= lam * (Z - 1)) by (apply Qmult_le_0_compat; lra).
    assert (0 <= (1 - lam) * (Z - 1)) by (apply Qmult_le_0_compat; lra).
    split; lra.
Qed.

(** *** Shapes of the intermediate tensors *)

Lemma has_shape3_expand_0 H W l :
  has_shape3 (length l) H W (expand_0 H W l).
Proof.
  unfold has_shape3, expand_0. rewrite length_fmap. split; [done|].
  apply Forall_fmap, Forall_true. intros z. simpl.
  rewrite length_replicate. split; [done|].
  apply Forall_replicate, length_replicate.
Qed.

Lemma has_shape3_expand_1 D W l :
  has_shape3 D (length l) W (expand_1 D W l).
Proof.
  unfold has_shape3, expand_1. rewrite length_replicate. split; [done|].
  apply Forall_replicate. rewrite length_fmap. split; [done|].
  apply Forall_fmap, Forall_true. intros y. apply length_replicate.
Qed.

Lemma has_shape3_expand_2 D H l :
  has_shape3 D H (length l) (expand_2 D H l).
Proof.
  unfold has_shape3, expand_2. rewrite length_replicate. split; [done|].
  apply Forall_replicate. rewrite length_replicate. split; [done|].
  by apply Forall_replicate.
Qed.

Lemma has_shape3_div_all D H W d t :
  has_shape3 D H W t → has_shape3 D H W (div_all d t).
Proof.
  unfold has_shape3, div_all. intros [Hlen Hall].
  rewrite length_fmap. split; [done|].
  apply Forall_fmap. eapply Forall_impl; [done|].
  intros a [Ha Hrows]. simpl. rewrite length_fmap. split; [done|].
  apply Forall_fmap. eapply Forall_impl; [done|].
  intros r Hr. simpl. by rewrite length_fmap.
Qed.

Lemma has_shape3_stack_last3 D H W xs ys zs :
  has_shape3 D H W xs → has_shape3 D H W ys → has_shape3 D H W zs →
  has_shape3 D H W (stack_last3 xs ys zs) ∧
  Forall (Forall (Forall (λ p, length p = 3%nat))) (stack_last3 xs ys zs).
Proof.
  unfold has_shape3, stack_last3. intros [Lx Hx] [Ly Hy] [Lz Hz].
  split; [split|].
  - rewrite !length_zip_with. lia.
  - apply Forall_lookup. intros k sk Hsk.
    apply lookup_zip_with_Some in Hsk as (xk & yzk & -> & Hxk & Hyzk).
    apply lookup_zip_with_Some in Hyzk as (yk & zk & -> & Hyk & Hzk).
    destruct (Forall_lookup_1 _ _ _ _ Hx Hxk) as [Lxk Hxr].
    destruct (Forall_lookup_1 _ _ _ _ Hy Hyk) as [Lyk Hyr].
    destruct (Forall_lookup_1 _ _ _ _ Hz Hzk) as [Lzk Hzr].
    rewrite !length_zip_with. split; [lia|].
    apply Forall_lookup. intros r sr Hsr.
    apply lookup_zip_with_Some in Hsr as (xr & yzr & -> & Hxr' & Hyzr).
    apply lookup_zip_with_Some in Hyzr as (yr & zr & -> & Hyr' & Hzr').
    pose proof (Forall_lookup_1 _ _ _ _ Hxr Hxr').
    pose proof (Forall_lookup_1 _ _ _ _ Hyr Hyr').
    pose proof (Forall_lookup_1 _ _ _ _ Hzr Hzr').
    rewrite length_zip_with, length_zip. simpl in *. lia.
  - apply Forall_lookup. intros k sk Hsk.
    apply lookup_zip_with_Some in Hsk as (xk & yzk & -> & _ & _).
    apply Forall_lookup. intros r sr Hsr.
    apply lookup_zip_with_Some in Hsr as (xr & yzr & -> & _ & _).
    apply Forall_lookup. intros c p Hp.
    by apply lookup_zip_with_Some in Hp as (x & yz & -> & _ & _).
Qed.

Lemma length_join_same {A} n (ls : list (list A)) :
  Forall (λ l, length l = n) ls → length (mjoin ls) = (length ls * n)%nat.
Proof. intros Hls. by rewrite length_join, (sum_list_fmap_same n). Qed.

(** X1: with [dim='3d'] the result has shape
    [(bs, num_points_in_pillar, H*W, 3)], and all batch items are the same
    grid. *)
Theorem reference_points_3d_shape (H W : nat) (Z : Q) (npp bs : nat) :
  ∃ t, get_reference_points H W Z npp "3d" bs = Tensor t ∧
       has_shape4 bs npp (H * W) 3 t ∧
       ∀ b b', (b < bs)%nat → (b' < bs)%nat → t !! b = t !! b'.
Proof.
  eexists. split; [reflexivity|].
  destruct (has_shape3_stack_last3 npp H W
    (div_all (Qofnat W)
       (expand_2 npp H (linspace (1#2) (Qofnat W - (1#2)) W)))
    (div_all (Qofnat H)
       (expand_1 npp W (linspace (1#2) (Qofnat H - (1#2)) H)))
    (div_all Z (expand_0 H W (linspace (1#2) (Z - (1#2)) npp))))
    as [[Hlen Hrows] Hpts].
  { apply has_shape3_div_all.
    pose proof (has_shape3_expand_2 npp H
      (linspace (1#2) (Qofnat W - (1#2)) W)) as Hs.
    by rewrite length_linspace in Hs. }
  { apply has_shape3_div_all.
    pose proof (has_shape3_expand_1 npp W
      (linspace (1#2) (Qofnat H - (1#2)) H)) as Hs.
    by rewrite length_linspace in Hs. }
  { apply has_shape3_div_all.
    pose proof (has_shape3_expand_0 H W
      (linspace (1#2) (Z - (1#2)) npp)) as Hs.
    by rewrite length_linspace in Hs. }
  split; [split|].
  - apply length_replicate.
  - apply Forall_replicate. unfold flatten_grid.
    rewrite length_fmap. split; [done|].
    apply Forall_fmap. apply Forall_lookup. intros k sk Hsk. simpl.
    destruct (Forall_lookup_1 _ _ _ _ Hrows Hsk) as [Lk Hk].
    pose proof (Forall_lookup_1 _ _ _ _ Hpts Hsk) as Hpk. simpl in Hpk.
    split; [by rewrite (length_join_same W), Lk|].
    by apply Forall_join.
  - intros b b' Hb Hb'. by rewrite !lookup_replicate_2.
Qed.

(** X2: for a pillar height [Z > 0.5] every 3-D reference point lies
    strictly inside the unit cube. *)
Theorem reference_points_3d_in_unit_cube
    (H W : nat) (Z : Q) (npp bs b k row col : nat) :
  1 # 2 < Z →
  (b < bs)%nat → (k < npp)%nat → (row < H)%nat → (col < W)%nat →
  ∃ t x y z,
    get_reference_points H W Z npp "3d" bs = Tensor t ∧
    entry3 t b k (row * W + col)%nat = Some [x; y; z] ∧
    (0 < x ∧ x < 1) ∧ (0 < y ∧ y < 1) ∧ (0 < z ∧ z < 1).
Proof.
  intros HZ Hb Hk Hrow Hcol.
  destruct (reference_point_3d H W Z npp bs b k row col)
    as (t & x & y & z & Ht & Hp & Hx & Hy & Hz); [done..|].
  exists t, x, y, z. split; [done|]. split; [done|].
  split; [by apply (centre_in_unit W col)|].
  split; [by apply (centre_in_unit H row)|].
  destruct (level_in_pillar Z npp k Hk HZ) as [Hlo Hhi].
  rewrite Hz. split.
  - apply Qlt_shift_div_l; lra.
  - apply Qlt_shift_div_r; lra.
Qed.

Lemma reference_points_3d_in_unit_cube_witness :
  ∃ t x y z,
    get_reference_points 2 2 8 4 "3d" 1 = Tensor t ∧
    entry3 t 0 3 (1 * 2 + 1)%nat = Some [x; y; z] ∧
    (0 < x ∧ x < 1) ∧ (0 < y ∧ y < 1) ∧ (0 < z ∧ z < 1).
Proof.
  apply (reference_points_3d_in_unit_cube 2 2 8 4 1 0 3 1 1);
    [reflexivity|lia..].
Defined.

(** X3: the lowest height level is at [0.5 / Z]; with two or more points in
    a pillar the highest is at [(Z - 0.5) / Z].  A pillar with a single
    point has it at [0.5 / Z], the bottom level, not at mid-height. *)
Theorem reference_points_3d_level_range
    (H W : nat) (Z : Q) (npp bs b row col : nat) :
  ¬ Z == 0 →
  (b < bs)%nat → (0 < npp)%nat → (row < H)%nat → (col < W)%nat →
  ∃ t x y z_low x' y' z_high,
    get_reference_points H W Z npp "3d" bs = Tensor t ∧
    entry3 t b 0 (row * W + col)%nat = Some [x; y; z_low] ∧
    entry3 t b (npp - 1) (row * W + col)%nat = Some [x'; y'; z_high] ∧
    z_low == (1#2) / Z ∧
    ((1 < npp)%nat → z_high == (Z - (1#2)) / Z) ∧
    (npp = 1%nat → z_high == (1#2) / Z).
Proof.
  intros HZ Hb Hnpp Hrow Hcol.
  destruct (reference_point_3d H W Z npp bs b 0 row col)
    as (t & x & y & z & Ht & Hp & _ & _ & Hz); [done..|].
  destruct (reference_point_3d H W Z npp bs b (npp - 1) row col)
    as (t' & x' & y' & z' & Ht' & Hp' & _ & _ & Hz'); [lia|lia|done..|].
  assert (t' = t) as -> by congruence.
  exists t, x, y, z, x', y', z'. repeat (split; [done|]).
  split; [|split].
  - rewrite Hz. apply Qdiv_comp; [|reflexivity].
    unfold Qofnat at 1. simpl. ring.
  - intros Hn. rewrite Hz'. apply Qdiv_comp; [|reflexivity].
    assert (0 < Qofnat (npp - 1)) by (apply Qofnat_pos; lia).
    field. lra.
  - intros ->. rewrite Hz'. apply Qdiv_comp; [|reflexivity].
    unfold Qofnat. simpl. ring.
Qed.

Lemma reference_points_3d_level_range_witness :
  ∃ t x y z_low x' y' z_high,
    get_reference_points 2 2 8 4 "3d" 1 = Tensor t ∧
    entry3 t 0 0 (1 * 2 + 1)%nat = Some [x; y; z_low] ∧
    entry3 t 0 (4 - 1) (1 * 2 + 1)%nat = Some [x'; y'; z_high] ∧
    z_low == (1#2) / 8 ∧
    ((1 < 4)%nat → z_high == (8 - (1#2)) / 8) ∧
    (4%nat = 1%nat → z_high == (1#2) / 8).
Proof.
  apply (reference_points_3d_level_range 2 2 8 4 1 0 1 1);
    [discriminate|lia..].
Defined.

(** *** The 2-D grid *)

(** X4: with [dim='2d'] the result has shape [(bs, H*W, 1, 2)]; position
    [row * W + col] of every batch item holds the one point
    [((col+0.5)/W, (row+0.5)/H)], which lies strictly inside the unit
    square. *)
Theorem reference_points_2d_grid (H W : nat) (Z : Q) (npp bs : nat) :
  ∃ g, get_reference_points H W Z npp "2d" bs = Tensor g ∧
    has_shape4 bs (H * W) 1 2 g ∧
    ∀ b row col,
      (b < bs)%nat → (row < H)%nat → (col < W)%nat →
      ∃ x y,
        (g !! b ≫= (.!! (row * W + col)%nat)) = Some [[x; y]] ∧
        x == (Qofnat col + (1#2)) / Qofnat W ∧
        y == (Qofnat row + (1#2)) / Qofnat H ∧
        (0 < x ∧ x < 1) ∧ (0 < y ∧ y < 1).
Proof.
  destruct (get_reference_points_2d H W Z npp bs)
    as (g & Hg & Hlen & Hrows & Hentry).
  exists g. split; [done|].
  assert (∃ r, g = replicate bs ((λ p : vec, [p]) <$> r) ∧
               length r = (H * W)%nat ∧
               Forall (λ p, length p = 2%nat) r) as (r & -> & Hlr & Hr).
  { unfold get_reference_points, meshgrid_ij in Hg.
    change (String.eqb "2d" "3d") with false in Hg.
    change (String.eqb "2d" "2d") with true in Hg. cbv iota in Hg.
    injection Hg as <-. eexists. split; [reflexivity|]. split.
    - rewrite length_zip_with, !length_fmap.
      rewrite length_join_replicate, length_join_rows, !length_linspace.
      lia.
    - apply Forall_lookup. intros i p Hp.
      by apply lookup_zip_with_Some in Hp as (x & y & -> & _ & _). }
  split; [split|].
  - done.
  - apply Forall_replicate. split.
    + by rewrite length_fmap.
    + apply Forall_fmap. eapply Forall_impl; [done|].
      intros p Hp. simpl. split; [done|]. by constructor.
  - intros b row col Hb Hrow Hcol.
    destruct (lookup_linspace (1#2) (Qofnat W - (1#2)) W col Hcol)
      as (vx & Hvx & Ex).
    destruct (lookup_linspace (1#2) (Qofnat H - (1#2)) H row Hrow)
      as (vy & Hvy & Ey).
    pose proof (Hentry b row col vx vy Hb Hrow Hcol Hvx Hvy) as He.
    unfold entry3 in He. rewrite lookup_replicate_2 in He |- * by done.
    simpl in He |- *. rewrite list_lookup_fmap in He |- *.
    destruct (r !! (row * W + col)%nat) as [p|]; [|done].
    simpl in He |- *. injection He as ->.
    pose proof (centre_coordinate W col vx Hcol Ex) as Hx.
    pose proof (centre_coordinate H row vy Hrow Ey) as Hy.
    eexists _, _. split; [done|]. split; [done|]. split; [done|].
    split; [by apply (centre_in_unit W col)|by apply (centre_in_unit H row)].
Qed.

(** ** Further properties of [point_sampling] *)

(** *** A short [pc_range] *)

Lemma denormalize_short pc l h :
  (length pc < 6)%nat → denormalize pc l h = None.
Proof.
  intros Hlen. destruct (denormalize pc l h) as [h'|] eqn:Hd; [|done].
  apply denormalize_inv in Hd as (t & _ & ?). lia.
Qed.

(** X5: a [pc_range] with fewer than six entries makes both projectors
    raise, and with them [forward], whatever the other arguments are. *)
Theorem point_sampling_short_pc_range (self : projector) (h : heap)
    (l : loc) (pc : list Q) (cp : cam_params) :
  (length pc < 6)%nat →
  point_sampling self h l pc cp = None ∧
  point_sampling_DFA3D self h l pc cp = None ∧
  ∀ T size1 permute_102 (enc : VoxFormerEncoder T)
    bev_query key value bev_h bev_w bev_pos ss lsi prev_bev,
    enc_projector enc = self → pc_range enc = pc →
    forward size1 permute_102 enc h bev_query key value l bev_h bev_w
      bev_pos ss lsi cp prev_bev = None.
Proof.
  intros Hlen.
  assert (∀ proj, point_sampling_samples proj h l pc cp = None) as Hs.
  { intros proj. unfold point_sampling_samples.
    by rewrite denormalize_short. }
  assert (point_sampling self h l pc cp = None) as Hps.
  { unfold point_sampling. destruct (final_dim self). by rewrite Hs. }
  split; [done|]. split.
  - unfold point_sampling_DFA3D. destruct (final_dim self). by rewrite Hs.
  - intros T size1 permute_102 enc bev_query key value bev_h bev_w bev_pos
      ss lsi prev_bev <- <-.
    unfold forward.
    destruct (forward_ref_2d size1 bev_query) as [g|]; [|done].
    cbn [mbind option_bind]. by rewrite Hps.
Qed.

Lemma point_sampling_short_pc_range_witness :
  point_sampling unit_projector one_point 0 [0; 0; 0; 1; 1] identity_camera
  = None.
Proof.
  refine (proj1 (point_sampling_short_pc_range unit_projector one_point
    0%nat [0; 0; 0; 1; 1] identity_camera _)).
  simpl. lia.
Defined.

(** *** The values left in [reference_points] *)

Lemma alter_Qeq (f : Q → Q) c (p q : vec) :
  (∀ v, f v == v) → Forall2 Qeq p q → Forall2 Qeq p (alter f c q).
Proof.
  intros Hf Hpq. revert c.
  induction Hpq as [|x y p q Hxy Hpq IH]; intros c; [constructor|].
  destruct c as [|c]; simpl.
  - constructor; [by rewrite Hf|done].
  - constructor; [done|apply IH].
Qed.

Lemma tensor_eq_rescale c s o t u :
  s == 1 → o == 0 → tensor_eq t u → tensor_eq t (rescale_channel c s o u).
Proof.
  intros Hs Ho. unfold tensor_eq, rescale_channel. intros Htu.
  apply Forall2_fmap_r. eapply Forall2_impl; [done|].
  intros tb ub Hb. simpl.
  apply Forall2_fmap_r. eapply Forall2_impl; [done|].
  intros td ud Hd. simpl.
  apply Forall2_fmap_r. eapply Forall2_impl; [done|].
  intros p q Hpq. simpl. apply alter_Qeq; [|done].
  intros v. rewrite Hs, Ho. ring.
Qed.

Lemma tensor_eq_refl t : tensor_eq t t.
Proof.
  unfold tensor_eq.
  apply Forall_Forall2_diag, Forall_true. intros tb.
  apply Forall_Forall2_diag, Forall_true. intros td.
  apply Forall_Forall2_diag, Forall_true. intros p.
  apply Forall_Forall2_diag, Forall_true. intros v. reflexivity.
Qed.

(** X6: when the point-cloud range is the unit cube (offsets 0, extents 1)
    the call leaves in [reference_points] the values it found: the in-place
    de-normalization is then the identity. *)
Theorem point_sampling_unit_range (self : projector) (h : heap) (l : loc)
    (pc : list Q) (cp : cam_params)
    (pts : tensor4 vec) (mask : tensor4 bool) (h' : heap) (t : tensor4 Q) :
  point_sampling self h l pc cp = Some (pts, mask, h') →
  h !! l = Some t →
  Forall2 Qeq (take 6 pc) [0; 0; 0; 1; 1; 1] →
  ∃ t', h' !! l = Some t' ∧ tensor_eq t t'.
Proof.
  intros Hps Ht Hpc.
  destruct (point_sampling_heap _ _ _ _ _ _ _ _ _ Hps Ht)
    as (r0 & r1 & r2 & r3 & r4 & r5 & H0 & H1 & H2 & H3 & H4 & H5 & ->).
  destruct pc as [|p0 [|p1 [|p2 [|p3 [|p4 [|p5 pc]]]]]]; try done.
  simpl in *. simplify_eq.
  repeat match goal with
         | H : Forall2 _ (_ :: _) (_ :: _) |- _ =>
             apply Forall2_cons_1 in H as [? H]
         end.
  eexists. split; [apply lookup_insert_eq|].
  do 3 (apply tensor_eq_rescale; [lra|lra|]). apply tensor_eq_refl.
Qed.

Lemma point_sampling_unit_range_witness :
  ∃ (h' : heap) t',
    h' !! 0%nat = Some t' ∧ tensor_eq [[[ [1 # 2; 1 # 2; 1] ]]] t'.
Proof.
  eexists.
  eapply (point_sampling_unit_range unit_projector one_point 0%nat
            unit_range identity_camera).
  - vm_compute. reflexivity.
  - reflexivity.
  - repeat constructor.
Defined.

(** X7: a second call on the same tensor de-normalizes the coordinates the
    first call left, so after two calls a point [(x, y, z)] holds
    [((x*sx+ox)*sx+ox, ...)] with [sx = pc_range[3]-pc_range[0]],
    [ox = pc_range[0]] and likewise for y and z. *)
Theorem point_sampling_twice (self : projector) (h : heap) (l : loc)
    (pc : list Q) (cp : cam_params)
    (pts1 pts2 : tensor4 vec) (mask1 mask2 : tensor4 bool)
    (h1 h2 : heap) (t : tensor4 Q) :
  point_sampling self h l pc cp = Some (pts1, mask1, h1) →
  point_sampling self h1 l pc cp = Some (pts2, mask2, h2) →
  h !! l = Some t →
  ∃ r0 r1 r2 r3 r4 r5 t2,
    pc !! 0%nat = Some r0 ∧ pc !! 1%nat = Some r1 ∧ pc !! 2%nat = Some r2 ∧
    pc !! 3%nat = Some r3 ∧ pc !! 4%nat = Some r4 ∧ pc !! 5%nat = Some r5 ∧
    h2 !! l = Some t2 ∧
    ∀ b d q x y z,
      entry3 t b d q = Some [x; y; z] →
      entry3 t2 b d q
      = Some [(x * (r3 - r0) + r0) * (r3 - r0) + r0;
              (y * (r4 - r1) + r1) * (r4 - r1) + r1;
              (z * (r5 - r2) + r2) * (r5 - r2) + r2].
Proof.
  intros Hps1 Hps2 Ht.
  destruct (point_sampling_heap _ _ _ _ _ _ _ _ _ Hps1 Ht)
    as (r0 & r1 & r2 & r3 & r4 & r5 & H0 & H1 & H2 & H3 & H4 & H5 & ->).
  destruct (point_sampling_heap _ _ _ _ _ _ _ _ _ Hps2
              (lookup_insert_eq _ _ _))
    as (r0' & r1' & r2' & r3' & r4' & r5' & ? & ? & ? & ? & ? & ? & ->).
  simplify_eq.
  eexists r0, r1, r2, r3, r4, r5, _. repeat (split; [done|]).
  split; [apply lookup_insert_eq|].
  intros b d q x y z Hp. by rewrite !entry3_rescale_channel, Hp.
Qed.

Lemma point_sampling_twice_witness :
  ∃ (h2 : heap) r0 r1 r2 r3 r4 r5 t2,
    kitti_range !! 0%nat = Some r0 ∧ kitti_range !! 1%nat = Some r1 ∧
    kitti_range !! 2%nat = Some r2 ∧ kitti_range !! 3%nat = Some r3 ∧
    kitti_range !! 4%nat = Some r4 ∧ kitti_range !! 5%nat = Some r5 ∧
    h2 !! 0%nat = Some t2 ∧
    ∀ b d q x y z,
      entry3 [[[ [1 # 2; 1 # 2; 1] ]]] b d q = Some [x; y; z] →
      entry3 t2 b d q
      = Some [(x * (r3 - r0) + r0) * (r3 - r0) + r0;
              (y * (r4 - r1) + r1) * (r4 - r1) + r1;
              (z * (r5 - r2) + r2) * (r5 - r2) + r2].
Proof.
  eexists.
  eapply (point_sampling_twice unit_projector one_point 0%nat kitti_range
            identity_camera).
  - vm_compute. reflexivity.
  - vm_compute. reflexivity.
  - reflexivity.
Defined.

(** *** The shape of the result *)

(** X8: when the call returns, the projected points and the mask both have
    the shape [(num_cam, bs, num_query, D)] read off [trans] and off the
    reference points, and every projected point has exactly two
    components. *)
Theorem point_sampling_shape (self : projector) (h : heap) (l : loc)
    (pc : list Q) (cp : cam_params)
    (pts : tensor4 vec) (mask : tensor4 bool) (h' : heap) (t : tensor4 Q) :
  point_sampling self h l pc cp = Some (pts, mask, h') →
  h !! l = Some t →
  has_shape4 (num_cam cp) (length t) (size_2 t) (size_1 t) pts ∧
  has_shape4 (num_cam cp) (length t) (size_2 t) (size_1 t) mask ∧
  ∀ n b q d p, entry pts n b q d = Some p → length p = 2%nat.
Proof.
  unfold point_sampling. intros Hps Ht.
  destruct (final_dim self) as [ogfH ogfW].
  destruct (point_sampling_samples _ h l pc cp) as [[s h1]|] eqn:Hs;
    [|done].
  simpl in Hps. injection Hps as <- <- <-.
  pose proof (point_sampling_samples_shape _ _ _ _ _ _ _ _ Hs Ht) as Hsh.
  split; [by apply has_shape4_map4|]. split; [by apply has_shape4_map4|].
  intros n b q d p Hp. rewrite entry_map4 in Hp.
  destruct (entry s n b q d) as [smp|] eqn:He; [|done].
  simpl in Hp. injection Hp as <-.
  destruct (point_sampling_samples_entry _ _ _ _ _ _ _ _ _ _ _ _ Hs He)
    as (pr & pt & cam & Hproj).
  by apply project_sample in Hproj as (x & y & _ & _ & -> & _).
Qed.

Lemma point_sampling_shape_witness :
  ∃ (pts : tensor4 vec) (mask : tensor4 bool),
    has_shape4 (num_cam identity_camera) 1 1 1 pts ∧
    has_shape4 (num_cam identity_camera) 1 1 1 mask ∧
    ∀ n b q d p, entry pts n b q d = Some p → length p = 2%nat.
Proof.
  eexists _, _.
  eapply (point_sampling_shape unit_projector one_point 0%nat unit_range
            identity_camera _ _ _ [[[ [1 # 2; 1 # 2; 1] ]]]).
  - vm_compute. reflexivity.
  - reflexivity.
Defined.

(** *** The DFA3D variant next to the base variant *)

Lemma project_DFA3D_of_project ogfH ogfW db d0 d1 pr pt cam smp :
  project ogfH ogfW pr pt cam = Some smp →
  db !! 0%nat = Some d0 → db !! 1%nat = Some d1 →
  project_DFA3D ogfH ogfW db pr pt cam = Some (add_depth_channel d0 d1 smp).
Proof.
  intros Hp H0 H1. unfold project in Hp.
  destruct cam as [|cx [|cy [|d rest]]], pr as [|r1 [|r2 rc]],
    pt as [|t1 [|t2 tc]], db as [|e0 [|e1 db]];
    simpl in Hp, H0, H1; try done.
  injection Hp as <-. injection H0 as <-. injection H1 as <-.
  reflexivity.
Qed.

Lemma mapM_Some_fmap {A B C} (f1 : A → option B) (f2 : A → option C)
    (F : B → C) (l : list A) (k : list B) :
  (∀ x y, f1 x = Some y → f2 x = Some (F y)) →
  mapM f1 l = Some k → mapM f2 l = Some (F <$> k).
Proof.
  intros HF Hm. apply mapM_Some_1 in Hm. apply mapM_Some_2.
  apply Forall2_fmap_r. eapply Forall2_impl; [done|]. exact HF.
Qed.

Lemma tabulate_samples_fmap proj1 proj2 (F : sample → sample)
    cp inv_bda inv_rots t s :
  (∀ pr pt cam smp,
     proj1 pr pt cam = Some smp → proj2 pr pt cam = Some (F smp)) →
  tabulate_samples proj1 cp inv_bda inv_rots t = Some s →
  tabulate_samples proj2 cp inv_bda inv_rots t = Some (map4 F s).
Proof.
  unfold tabulate_samples. intros HF Ht.
  repeat case_guard; simpl in Ht |- *; try done.
  unfold map4.
  eapply mapM_Some_fmap; [|exact Ht]. intros n sn Hn. simpl in Hn.
  eapply mapM_Some_fmap; [|exact Hn]. intros b sb Hb. simpl in Hb.
  eapply mapM_Some_fmap; [|exact Hb]. intros q sq Hq. simpl in Hq.
  eapply mapM_Some_fmap; [|exact Hq]. intros d smp Hd. simpl in Hd.
  destruct (entry3 t b d q) as [p|]; [|done].
  destruct (inv_bda !! b) as [ib|]; [|done].
  destruct (trans cp !! b ≫= (.!! n)) as [tr|]; [|done].
  destruct (inv_rots !! b ≫= (.!! n)) as [ir|]; [|done].
  destruct (intrins cp !! b ≫= (.!! n)) as [K|]; [|done].
  destruct (post_rots cp !! b ≫= (.!! n)) as [pr|]; [|done].
  destruct (post_trans cp !! b ≫= (.!! n)) as [pt|]; [|done].
  simpl in *. by apply HF.
Qed.

(** Whenever the base projector returns and [d_bound] has its two bounds,
    the DFA3D projector returns too, leaves the same heap, and its entries
    are the base entries with the depth channel added. *)
Lemma point_sampling_DFA3D_of_base self h l pc cp d0 d1 ogfH ogfW s h' :
  final_dim self = (ogfH, ogfW) →
  d_bound self !! 0%nat = Some d0 → d_bound self !! 1%nat = Some d1 →
  point_sampling_samples (project ogfH ogfW) h l pc cp = Some (s, h') →
  point_sampling_samples (project_DFA3D ogfH ogfW (d_bound self)) h l pc cp
  = Some (map4 (add_depth_channel d0 d1) s, h').
Proof.
  unfold point_sampling_samples. intros _ H0 H1 Hs.
  destruct (denormalize pc l h) as [h1|]; [|done]. simpl in *.
  destruct (h1 !! l) as [t|]; [|done]. simpl in *.
  destruct (mapM inverse (bda cp)) as [ib|]; [|done]. simpl in *.
  destruct (mapM (mapM inverse) (rots cp)) as [ir|]; [|done]. simpl in *.
  destruct (tabulate_samples (project ogfH ogfW) cp ib ir t)
    as [s'|] eqn:Ht; [|done].
  simpl in Hs. injection Hs as <- <-.
  erewrite tabulate_samples_fmap; [done| |exact Ht].
  intros pr pt cam smp Hp. by apply project_DFA3D_of_project.
Qed.

Lemma Qlt_div_iff e a c : 0 < c → (e < a / c ↔ e * c < a).
Proof.
  intros Hc. rewrite <- (Qmult_lt_r _ _ c Hc).
  assert (a / c * c == a) as -> by (field; lra). done.
Qed.

(** X9: on the same arguments the DFA3D projector returns whenever the base
    projector does (given two distinct depth bounds), leaves the same heap, and
    every point it returns is the base point followed by the normalized
    depth [(d - d_bound[0]) / (d_bound[1] - d_bound[0])]. *)
Theorem point_sampling_DFA3D_channels (self : projector) (h : heap)
    (l : loc) (pc : list Q) (cp : cam_params)
    (pts : tensor4 vec) (mask : tensor4 bool) (h' : heap) (d0 d1 : Q) :
  point_sampling self h l pc cp = Some (pts, mask, h') →
  d_bound self !! 0%nat = Some d0 → d_bound self !! 1%nat = Some d1 →
  ¬ d1 == d0 →
  ∃ pts' mask' depth,
    point_sampling_DFA3D self h l pc cp = Some (pts', mask', h') ∧
    camera_depth self h l pc cp = Some depth ∧
    ∀ n b q d p, entry pts n b q d = Some p →
      ∃ dep x y,
        p = [x; y] ∧
        entry depth n b q d = Some dep ∧
        entry pts' n b q d = Some [x; y; (dep - d0) / (d1 - d0)].
Proof.
  unfold point_sampling, point_sampling_DFA3D, camera_depth.
  intros Hps H0 H1 _.
  destruct (final_dim self) as [ogfH ogfW] eqn:Hfd.
  destruct (point_sampling_samples (project ogfH ogfW) h l pc cp)
    as [[s h1]|] eqn:Hs; [|done].
  simpl in Hps. injection Hps as <- <- <-.
  rewrite (point_sampling_DFA3D_of_base self h l pc cp d0 d1 ogfH ogfW
             s h1 Hfd H0 H1 Hs).
  simpl. eexists _, _, _. split; [done|]. split; [done|].
  intros n b q d p Hp. rewrite !entry_map4 in *.
  destruct (entry s n b q d) as [smp|] eqn:He; [|done].
  simpl in *. injection Hp as <-.
  destruct (point_sampling_samples_entry _ _ _ _ _ _ _ _ _ _ _ _ Hs He)
    as (pr & pt & cam & Hproj).
  apply project_sample in Hproj as (x & y & _ & _ & Hc & _).
  exists (raw_depth smp), x, y. rewrite Hc. done.
Qed.

Lemma point_sampling_DFA3D_channels_witness :
  ∃ (h' : heap) pts pts' mask' depth,
    point_sampling_DFA3D unit_projector one_point 0 unit_range
      identity_camera = Some (pts', mask', h') ∧
    camera_depth unit_projector one_point 0 unit_range identity_camera
    = Some depth ∧
    ∀ n b q d p, entry pts n b q d = Some p →
      ∃ dep x y,
        p = [x; y] ∧
        entry depth n b q d = Some dep ∧
        entry pts' n b q d = Some [x; y; (dep - 2) / (58 - 2)].
Proof.
  eexists _, _.
  eapply (point_sampling_DFA3D_channels unit_projector one_point 0%nat
            unit_range identity_camera).
  - vm_compute. reflexivity.
  - reflexivity.
  - reflexivity.
  - discriminate.
Defined.

(** X10: the DFA3D mask tests the normalized depth.  With
    [d_bound[0] < d_bound[1]] an entry is marked visible exactly when its
    camera-space depth exceeds
    [d_bound[0] + eps * (d_bound[1] - d_bound[0])] and both pixel
    coordinates lie strictly between [eps] and [1 - eps]; a point at or
    nearer than [d_bound[0]] is never visible.  With [d_bound[0] >= 0] and
    bounds at least 1 apart, whatever the DFA3D mask shows the base mask
    shows too. *)
Theorem point_sampling_DFA3D_mask (self : projector) (h : heap)
    (l : loc) (pc : list Q) (cp : cam_params)
    (pts : tensor4 vec) (mask : tensor4 bool) (h' : heap) (d0 d1 : Q) :
  point_sampling self h l pc cp = Some (pts, mask, h') →
  d_bound self !! 0%nat = Some d0 → d_bound self !! 1%nat = Some d1 →
  d0 < d1 →
  ∃ pts' mask' depth,
    point_sampling_DFA3D self h l pc cp = Some (pts', mask', h') ∧
    camera_depth self h l pc cp = Some depth ∧
    ∀ n b q d m', entry mask' n b q d = Some m' →
      ∃ dep x y m,
        entry depth n b q d = Some dep ∧
        entry pts n b q d = Some [x; y] ∧
        entry mask n b q d = Some m ∧
        (m' = true ↔
           d0 + eps * (d1 - d0) < dep ∧ (eps < x ∧ x < 1 - eps)
                                       ∧ (eps < y ∧ y < 1 - eps)) ∧
        (dep <= d0 → m' = false) ∧
        (0 <= d0 → 1 <= d1 - d0 → m' = true → m = true).
Proof.
  unfold point_sampling, point_sampling_DFA3D, camera_depth.
  intros Hps H0 H1 Hd.
  destruct (final_dim self) as [ogfH ogfW] eqn:Hfd.
  destruct (point_sampling_samples (project ogfH ogfW) h l pc cp)
    as [[s h1]|] eqn:Hs; [|done].
  simpl in Hps. injection Hps as <- <- <-.
  rewrite (point_sampling_DFA3D_of_base self h l pc cp d0 d1 ogfH ogfW
             s h1 Hfd H0 H1 Hs).
  simpl. eexists _, _, _. split; [done|]. split; [done|].
  intros n b q d m' Hm. rewrite !entry_map4 in *.
  destruct (entry s n b q d) as [smp|] eqn:He; [|done].
  simpl in *. injection Hm as <-.
  destruct (point_sampling_samples_entry _ _ _ _ _ _ _ _ _ _ _ _ Hs He)
    as (pr & pt & cam & Hproj).
  apply project_sample in Hproj as (x & y & _ & _ & Hc & Hv).
  exists (raw_depth smp), x, y, (volume_mask smp).
  rewrite Hc, Hv. repeat (split; [done|]).
  set (dep := raw_depth smp). pose proof eps_pos as Heps.
  assert (0 < d1 - d0) as Hpos by lra.
  assert (eps < (dep - d0) / (d1 - d0) ↔ d0 + eps * (d1 - d0) < dep)
    as Hiff.
  { rewrite Qlt_div_iff by done. split; intros; lra. }
  split; [|split].
  - rewrite visible_spec, Hiff. done.
  - intros Hle. apply not_true_iff_false. rewrite visible_spec, Hiff.
    intros [Hlt _].
    assert (0 <= eps * (d1 - d0)) by (apply Qmult_le_0_compat; lra). lra.
  - intros Hd0 Hgap. rewrite !visible_spec, Hiff. intros (Hlt & Hx & Hy).
    split; [|done].
    assert (eps * 1 <= eps * (d1 - d0)) by (apply Qmult_le_l; lra). lra.
Qed.

Lemma point_sampling_DFA3D_mask_witness :
  ∃ (h' : heap) pts mask pts' mask' depth,
    point_sampling_DFA3D unit_projector one_point 0 unit_range
      identity_camera = Some (pts', mask', h') ∧
    camera_depth unit_projector one_point 0 unit_range identity_camera
    = Some depth ∧
    ∀ n b q d m', entry mask' n b q d = Some m' →
      ∃ dep x y m,
        entry depth n b q d = Some dep ∧
        entry pts n b q d = Some [x; y] ∧
        entry mask n b q d = Some m ∧
        (m' = true ↔
           2 + eps * (58 - 2) < dep ∧ (eps < x ∧ x < 1 - eps)
                                     ∧ (eps < y ∧ y < 1 - eps)) ∧
        (dep <= 2 → m' = false) ∧
        (0 <= 2 → 1 <= 58 - 2 → m' = true → m = true).
Proof.
  eexists _, _, _.
  eapply (point_sampling_DFA3D_mask unit_projector one_point 0%nat
            unit_range identity_camera).
  - vm_compute. reflexivity.
  - reflexivity.
  - reflexivity.
  - reflexivity.
Defined.

(** ** Further properties of [VoxFormerEncoder.forward] *)

Lemma run_layers_outputs {T} ri h (call : T → layer_call T) ls q o acc :
  run_layers ri h call ls q o acc
  = (default o (last (layer_outputs h call ls q)),
     if ri then acc ++ layer_outputs h call ls q else acc).
Proof.
  revert q o acc. induction ls as [|l ls IH]; intros q o acc.
  - simpl. destruct ri; [by rewrite app_nil_r|done].
  - simpl. rewrite IH. f_equal.
    + rewrite last_cons. by destruct (last _).
    + destruct ri; [|done]. by rewrite <- app_assoc.
Qed.

(** X11: what [forward] returns without [return_intermediate] is the last
    entry of the stack it returns with [return_intermediate]; both calls
    leave the same heap. *)
Theorem forward_output_is_last_of_stack {T} (size1 : T → nat)
    (permute_102 : T → T) (self : VoxFormerEncoder T) (h : heap)
    (bev_query key value : T) (ref_3d : loc) (bev_h bev_w : option nat)
    (bev_pos : option T) (ss : option (list (nat * nat)))
    (lsi : option (list nat)) (cp : cam_params) (prev_bev : option T)
    (outs : list T) (h' : heap) :
  forward size1 permute_102 (with_return_intermediate true self) h
    bev_query key value ref_3d bev_h bev_w bev_pos ss lsi cp prev_bev
  = Some (Stacked outs, h') →
  ∃ o, last outs = Some o ∧
       length outs = length (layers self) ∧
       forward size1 permute_102 (with_return_intermediate false self) h
         bev_query key value ref_3d bev_h bev_w bev_pos ss lsi cp prev_bev
       = Some (Output o, h').
Proof.
  unfold forward.
  destruct (forward_ref_2d size1 bev_query) as [g|]; [|done].
  cbn [with_return_intermediate enc_projector pc_range return_intermediate
       layers mbind option_bind].
  destruct (point_sampling _ _ _ _ _) as [[[pts mask] h1]|]; [|done].
  cbn [mbind option_bind]. rewrite !run_layers_outputs. simpl.
  set (outs' := layer_outputs _ _ _ _).
  assert (length outs' = length (layers self)) as Hlen.
  { unfold outs'. generalize (permute_102 bev_query).
    induction (layers self) as [|l ls IH]; intros q; [done|].
    simpl. by rewrite IH. }
  destruct outs' as [|o1 rest] eqn:Ho; [done|].
  simpl. intros [= <- <-].
  destruct (last (o1 :: rest)) as [o|] eqn:Hlast.
  - exists o. by rewrite <- Hlen.
  - by apply last_None in Hlast.
Qed.

Lemma forward_output_is_last_of_stack_witness :
  ∃ (h' : heap) outs o,
    last outs = Some o ∧
    length outs = length (layers (two_layer_encoder true)) ∧
    forward (λ _ : nat, 1%nat) id
      (with_return_intermediate false (two_layer_encoder true)) one_point
      5%nat 0%nat 0%nat 0%nat (Some 128%nat) (Some 128%nat) None None None
      identity_camera None
    = Some (Output o, h').
Proof.
  eexists _, _.
  eapply (forward_output_is_last_of_stack (λ _ : nat, 1%nat) id
            (two_layer_encoder true) one_point 5%nat 0%nat 0%nat 0%nat).
  unfold forward.
  destruct (get_reference_points_2d 512 512 8 4 1) as (g & Hg & _).
  change (forward_ref_2d (λ _ : nat, 1%nat) 5%nat = Tensor g) in Hg.
  rewrite Hg. vm_compute. reflexivity.
Defined.

(** X12: an encoder without layers returns, without [return_intermediate],
    the [bev_query] it was given, before the permutation; with
    [return_intermediate] it raises, [torch.stack] having nothing to
    stack. *)
Theorem forward_without_layers {T} (size1 : T → nat)
    (permute_102 : T → T) (self : VoxFormerEncoder T) (h : heap)
    (bev_query key value : T) (ref_3d : loc) (bev_h bev_w : option nat)
    (bev_pos : option T) (ss : option (list (nat * nat)))
    (lsi : option (list nat)) (cp : cam_params) (prev_bev : option T)
    (pts : tensor4 vec) (mask : tensor4 bool) (h' : heap) :
  layers self = [] →
  point_sampling (enc_projector self) h ref_3d (pc_range self) cp
  = Some (pts, mask, h') →
  forward size1 permute_102 self h bev_query key value ref_3d
    bev_h bev_w bev_pos ss lsi cp prev_bev
  = if return_intermediate self then None else Some (Output bev_query, h').
Proof.
  intros Hl Hps.
  destruct (get_reference_points_2d 512 512 8 4 (size1 bev_query))
    as (g & Hg & _).
  change (forward_ref_2d size1 bev_query = Tensor g) in Hg.
  unfold forward. rewrite Hg. cbn [mbind option_bind].
  rewrite Hps, Hl. cbn [mbind option_bind]. simpl.
  by destruct (return_intermediate self).
Qed.

Lemma forward_without_layers_witness :
  ∃ (h' : heap),
    forward (λ _ : nat, 1%nat) id (no_layer_encoder false) one_point
      5%nat 0%nat 0%nat 0%nat (Some 128%nat) (Some 128%nat) None None None
      identity_camera None
    = if return_intermediate (no_layer_encoder false)
      then None else Some (Output 5%nat, h').
Proof.
  eexists.
  eapply (forward_without_layers (λ _ : nat, 1%nat) id
            (no_layer_encoder false) one_point 5%nat 0%nat 0%nat 0%nat).
  - reflexivity.
  - vm_compute. reflexivity.
Defined.

(** ** Further properties of [VoxFormerLayer.forward] *)

(** The loop does not read the [attn_masks] argument itself, only the list
    made from it. *)
Lemma run_operations_with_attn_masks {T} (self : VoxFormerLayer T) m a
    ms order st :
  run_operations self (with_attn_masks m a) ms order st
  = run_operations self a ms order st.
Proof.
  revert st. induction order as [|l order IH]; intros st; [done|].
  simpl. change (step self (with_attn_masks m a) ms st l)
    with (step self a ms st l).
  destruct (step self a ms st l); [|done]. simpl. apply IH.
Qed.

(** X13: a list of masks whose length is not the number of attentions fails
    the assertion of lines 443-446, so the call raises before any
    sub-module runs. *)
Theorem attn_masks_wrong_length {T} (self : VoxFormerLayer T)
    (query_in : T) (a : layer_args T) (ms : list (option T)) :
  length ms ≠ num_attn self →
  layer_forward self query_in (with_attn_masks (MasksList ms) a) = None.
Proof.
  intros Hlen. unfold layer_forward. simpl.
  by rewrite option_guard_False.
Qed.

Lemma attn_masks_wrong_length_witness :
  layer_forward (counting_layer usual_order) 1%nat
    (with_attn_masks (MasksList [None]) (plain_args MasksNone)) = None.
Proof. apply attn_masks_wrong_length. simpl. lia. Defined.

(** X14: a single tensor gives the result that the list of [num_attn] copies
    of it gives, the warning apart; no mask at all gives exactly what the
    list of [num_attn] empty masks gives. *)
Theorem attn_masks_broadcast {T} (self : VoxFormerLayer T) (query_in : T)
    (a : layer_args T) (m : T) :
  fst <$> layer_forward self query_in (with_attn_masks (MasksTensor m) a)
  = fst <$> layer_forward self query_in
      (with_attn_masks
         (MasksList (replicate (num_attn self) (Some m))) a) ∧
  layer_forward self query_in (with_attn_masks MasksNone a)
  = layer_forward self query_in
      (with_attn_masks (MasksList (replicate (num_attn self) None)) a).
Proof.
  unfold layer_forward. simpl.
  rewrite !option_guard_True by apply length_replicate. simpl.
  rewrite !run_operations_with_attn_masks.
  split; by destruct (run_operations _ _ _ _ _).
Qed.

(** How far the loop moves the three indices, and that every module it
    used was there. *)
Lemma run_operations_indices {T} (self : VoxFormerLayer T) a
    (masks : list (option T)) order st st' :
  run_operations self a masks order st = Some st' →
  attn_index st' = (attn_index st + count_tag "self_attn" order
                    + count_tag "cross_attn" order)%nat ∧
  norm_index st' = (norm_index st + count_tag "norm" order)%nat ∧
  ffn_index st' = (ffn_index st + count_tag "ffn" order)%nat ∧
  ((attn_index st < attn_index st')%nat →
   (attn_index st' ≤ length (attentions self))%nat ∧
   (attn_index st' ≤ length masks)%nat) ∧
  ((norm_index st < norm_index st')%nat →
   (norm_index st' ≤ length (norms self))%nat) ∧
  ((ffn_index st < ffn_index st')%nat →
   (ffn_index st' ≤ length (ffns self))%nat).
Proof.
  revert st. induction order as [|l order IH]; intros st Hrun.
  { simpl in Hrun. injection Hrun as <-. unfold count_tag. simpl.
    repeat split; lia. }
  simpl in Hrun.
  destruct (step self a masks st l) as [st1|] eqn:Hstep; [|done].
  simpl in Hrun. apply IH in Hrun as (Ha & Hn & Hf & Hab & Hnb & Hfb).
  rewrite !count_tag_cons. unfold step in Hstep.
  destruct (String.eqb_spec l "self_attn") as [->|_].
  { destruct (attentions self !! attn_index st) as [att|] eqn:Hatt;
      [|done].
    destruct (masks !! attn_index st) as [am|] eqn:Ham; [|done].
    destruct (la_bev_h a) as [bh|]; [|done].
    destruct (la_bev_w a) as [bw|]; [|done].
    simpl in Hstep. injection Hstep as <-. simpl in *.
    apply lookup_lt_Some in Hatt, Ham.
    repeat split; try lia; intros; try (apply Hab; lia);
      try (apply Hnb; lia); try (apply Hfb; lia);
      destruct (decide (attn_index st + 1 < attn_index st')%nat);
      try (apply Hab; lia); lia. }
  destruct (String.eqb_spec l "norm") as [->|_].
  { destruct (norms self !! norm_index st) as [nm|] eqn:Hnm; [|done].
    simpl in Hstep. injection Hstep as <-. simpl in *.
    apply lookup_lt_Some in Hnm.
    repeat split; try lia; intros; try (apply Hab; lia);
      try (apply Hfb; lia);
      destruct (decide (norm_index st + 1 < norm_index st')%nat);
      try (apply Hnb; lia); lia. }
  destruct (String.eqb_spec l "cross_attn") as [->|_].
  { destruct (attentions self !! attn_index st) as [att|] eqn:Hatt;
      [|done].
    destruct (masks !! attn_index st) as [am|] eqn:Ham; [|done].
    simpl in Hstep. injection Hstep as <-. simpl in *.
    apply lookup_lt_Some in Hatt, Ham.
    repeat split; try lia; intros; try (apply Hab; lia);
      try (apply Hnb; lia); try (apply Hfb; lia);
      destruct (decide (attn_index st + 1 < attn_index st')%nat);
      try (apply Hab; lia); lia. }
  destruct (String.eqb_spec l "ffn") as [->|_].
  { destruct (ffns self !! ffn_index st) as [ff|] eqn:Hff; [|done].
    simpl in Hstep. injection Hstep as <-. simpl in *.
    apply lookup_lt_Some in Hff.
    repeat split; try lia; intros; try (apply Hab; lia);
      try (apply Hnb; lia);
      destruct (decide (ffn_index st + 1 < ffn_index st')%nat);
      try (apply Hfb; lia); lia. }
  injection Hstep as <-. simpl in *.
  repeat split; try lia; intros; try (apply Hab; lia);
    try (apply Hnb; lia); try (apply Hfb; lia).
Qed.

Lemma length_expand_attn_masks {T} (self : VoxFormerLayer T) m ms w :
  expand_attn_masks self m = Some (ms, w) → length ms = num_attn self.
Proof.
  destruct m as [|m|l]; simpl.
  - intros [= <- _]. apply length_replicate.
  - intros [= <- _]. apply length_replicate.
  - case_guard; simpl; [|done]. by intros [= <- _].
Qed.

(** X15: when the call returns, the operation order asked for no more
    sub-modules than the layer has: its attention tags number at most
    [len(attentions)] and at most [num_attn], its ['norm'] tags at most
    [len(norms)], its ['ffn'] tags at most [len(ffns)].  An order that
    asks for more makes the call raise. *)
Theorem layer_forward_needs_modules {T} (self : VoxFormerLayer T)
    (query_in : T) (a : layer_args T) (out : T) (w : list string) :
  layer_forward self query_in a = Some (out, w) →
  (count_tag "self_attn" (operation_order self)
   + count_tag "cross_attn" (operation_order self)
   ≤ length (attentions self))%nat ∧
  (count_tag "self_attn" (operation_order self)
   + count_tag "cross_attn" (operation_order self) ≤ num_attn self)%nat ∧
  (count_tag "norm" (operation_order self) ≤ length (norms self))%nat ∧
  (count_tag "ffn" (operation_order self) ≤ length (ffns self))%nat.
Proof.
  unfold layer_forward. intros Hf.
  destruct (expand_attn_masks self (la_attn_masks a)) as [[ms w']|] eqn:He;
    [|done].
  apply length_expand_attn_masks in He. simpl in Hf.
  destruct (run_operations _ _ _ _ _) as [st|] eqn:Hrun; [|done].
  apply run_operations_indices in Hrun
    as (Ha & Hn & Hff & Hab & Hnb & Hfb).
  simpl in *. repeat split.
  - destruct (decide (0 < attn_index st)%nat); [|lia].
    destruct Hab; lia.
  - destruct (decide (0 < attn_index st)%nat); [|lia].
    destruct Hab; lia.
  - destruct (decide (0 < norm_index st)%nat); [|lia].
    specialize (Hnb ltac:(lia)). lia.
  - destruct (decide (0 < ffn_index st)%nat); [|lia].
    specialize (Hfb ltac:(lia)). lia.
Qed.

Lemma layer_forward_needs_modules_witness :
  (count_tag "self_attn" usual_order + count_tag "cross_attn" usual_order
   ≤ 2)%nat ∧
  (count_tag "self_attn" usual_order + count_tag "cross_attn" usual_order
   ≤ 2)%nat ∧
  (count_tag "norm" usual_order ≤ 3)%nat ∧
  (count_tag "ffn" usual_order ≤ 1)%nat.
Proof.
  eapply (layer_forward_needs_modules (counting_layer usual_order) 1%nat
            (plain_args MasksNone)).
  vm_compute. reflexivity.
Defined.

(** X16: the call depends on the operation order only through the tags the
    loop knows: with every other tag removed it returns the same result or
    raises alike. *)
Theorem layer_forward_known_tags {T} (self : VoxFormerLayer T)
    (query_in : T) (a : layer_args T) :
  layer_forward self query_in a
  = layer_forward
      (with_operation_order
         (filter (λ l, known_tag l = true) (operation_order self)) self)
      query_in a.
Proof.
  rewrite layer_forward_order. unfold layer_forward.
  destruct (expand_attn_masks self (la_attn_masks a)) as [[ms w]|]; [|done].
  simpl. f_equal.
  generalize ({| query := query_in; identity := query_in; attn_index := 0;
                 norm_index := 0; ffn_index := 0 |} : loop_state T).
  induction (operation_order self) as [|l order IH]; intros st; [done|].
  rewrite filter_cons. destruct (known_tag l) eqn:Hk.
  - rewrite decide_True by done. simpl.
    destruct (step self a ms st l); [|done]. simpl. apply IH.
  - rewrite decide_False by done. simpl.
    rewrite step_unknown by done. simpl. apply IH.
Qed.
